(** * Unigram counting of GloVe's [vocab_count.c]

    A shallow embedding of [src/lib/glove/vocab_count.c]: the string
    comparison [scmp], the two [qsort] comparators, the move-to-front hash
    table ([bitwisehash], [inithashtable], [hashinsert]), the token loop of
    [get_counts] with its ranking and emission steps, and the entry point
    [vocab_count].

    Conventions.
    - A [char] is the integer value the C type [char] holds; a C string is a
      [list char] whose end stands for the terminating NUL, and an embedded
      [0] terminates it earlier, as it does in C.
    - [long long] values are integers of [Z]; where the code does
      [long long] arithmetic ([count++], [++i] and the subtraction in the
      comparators) the result is reduced with [wrap64].
    - [unsigned int] arithmetic in the hash is reduced modulo [2^32].
    - The hash table [HASHREC **ht] is the list of its [TSIZE] chains; a
      chain is the list of its nodes from the head on. *)

From Stdlib Require Import ZArith Lia Sorting.Sorted Sorting.Permutation.
From Stdlib Require Import Strings.Ascii Strings.String Numbers.DecimalString.
From stdpp Require Import base list gmap sorting.

Local Open Scope Z_scope.

(** ** Constants and data *)

(** The values of the C type [char]. *)
Abbreviation char := Z (only parsing).

Definition MAX_STRING_LENGTH : Z := 1000.
Definition TSIZE : Z := 1048576.
Definition SEED : Z := 1159241.

Record VOCAB : Type := mkVOCAB { word : list char; count : Z }.

(** A node of a chain; the [next] pointer is the tail of the list. *)
Record HASHREC : Type := mkHASHREC { hword : list char; hcount : Z }.

Definition LLONG_MAX : Z := 2 ^ 63 - 1.

(** Two's complement reduction of a [long long] result. *)
Definition wrap64 (z : Z) : Z := (z + 2 ^ 63) mod 2 ^ 64 - 2 ^ 63.

(** Reduction of an [unsigned int] result. *)
Definition wrap32u (z : Z) : Z := z mod 2 ^ 32.

(** ** C strings *)

(** [*s]: the byte under the pointer; past the stored bytes sits the NUL. *)
Definition deref (s : list char) : char :=
  match s with
  | [] => 0
  | c :: _ => c
  end.

(** The bytes of the C string that starts at [s], the NUL excluded. *)
Fixpoint cstr (s : list char) : list char :=
  match s with
  | [] => []
  | c :: s' => if c =? 0 then [] else c :: cstr s'
  end.

(** The number of bytes before the NUL. *)
Definition strlen (s : list char) : nat := length (cstr s).

(** [strcpy] into a fresh buffer of [strlen s + 1] bytes. *)
Definition strcpy (s : list char) : list char := cstr s.

(** [scmp]: walk both strings while the bytes agree and are not NUL, and
    return the difference of the first bytes that stop the walk. *)
Fixpoint scmp (s1 s2 : list char) : Z :=
  match s1 with
  | [] => deref s1 - deref s2
  | c1 :: s1' =>
      if negb (c1 =? 0) && (c1 =? deref s2)
      then scmp s1' (tail s2)
      else c1 - deref s2
  end.

(** ** Comparators *)

(** Vocab frequency comparison; break ties alphabetically. *)
Definition CompareVocabTie (a b : VOCAB) : Z :=
  let c := wrap64 (count b - count a) in
  if negb (c =? 0) then (if c >? 0 then 1 else -1)
  else scmp (word a) (word b).

(** Vocab frequency comparison; no tie-breaker. *)
Definition CompareVocab (a b : VOCAB) : Z :=
  let c := wrap64 (count b - count a) in
  if negb (c =? 0) then (if c >? 0 then 1 else -1)
  else 0.

(** ** The hash table *)

(** The loop of [bitwisehash]: [h ^= ((h << 5) + c + (h >> 2))] for every
    byte [c] up to the NUL. *)
Fixpoint bitwisehash_loop (w : list char) (h : Z) : Z :=
  match w with
  | [] => h
  | c :: w' =>
      if c =? 0 then h
      else bitwisehash_loop w'
             (Z.lxor h (wrap32u (wrap32u (Z.shiftl h 5) + c + Z.shiftr h 2)))
  end.

(** Simple bitwise hash function. *)
Definition bitwisehash (w : list char) (tsize : Z) (seed : Z) : Z :=
  Z.land (bitwisehash_loop w seed) 2147483647 mod tsize.

Definition HASHFN := bitwisehash.

(** [HASHREC **ht]: the chains, by bucket index. *)
Abbreviation hashtable := (list (list HASHREC)) (only parsing).

(** Create hash table, initialise pointers to NULL. *)
Definition inithashtable : hashtable := replicate (Z.to_nat TSIZE) [].

(** The scan of [hashinsert]: the nodes passed ([hprv] is the last of them,
    NULL when there is none) and the chain from [htmp] on ([htmp] is NULL
    when it is empty). *)
Fixpoint chain_scan (w : list char) (chain : list HASHREC)
  : list HASHREC * list HASHREC :=
  match chain with
  | [] => ([], [])
  | r :: next =>
      if negb (scmp (hword r) w =? 0)
      then let '(passed, rest) := chain_scan w next in (r :: passed, rest)
      else ([], chain)
  end.

(** [htmp->count++]. *)
Definition count_incr (r : HASHREC) : HASHREC :=
  mkHASHREC (hword r) (wrap64 (hcount r + 1)).

(** The body of [hashinsert] on the chain of bucket [hval]. *)
Definition hashinsert_chain (w : list char) (chain : list HASHREC)
  : list HASHREC :=
  match chain_scan w chain with
  | (passed, []) =>
      (* not found: the new record is linked after [hprv] (or becomes the
         head), it is not moved to the front *)
      passed ++ [mkHASHREC (strcpy w) 1]
  | (passed, htmp :: next) =>
      match passed with
      | [] => count_incr htmp :: next
      | _ :: _ => count_incr htmp :: passed ++ next   (* move to front *)
      end
  end.

(** [hashinsert]: the chain of bucket [hval] is rewritten in place; the
    table has [TSIZE] chains, so that [hval] is an index of it. *)
Definition hashinsert (ht : hashtable) (w : list char) : hashtable :=
  let hval := Z.to_nat (HASHFN w TSIZE SEED) in
  alter (hashinsert_chain w) hval ht.

(** Migration of the table to the array: every bucket in index order, every
    chain from its head on.  (The array grows by [realloc] in steps of 2500
    entries; its capacity is not modelled.) *)
Definition to_vocab (r : HASHREC) : VOCAB := mkVOCAB (hword r) (hcount r).

(** The nodes in the order the migration loop visits them. *)
Definition entries (ht : hashtable) : list HASHREC := mjoin ht.

Definition migrate (ht : hashtable) : list VOCAB := to_vocab <$> entries ht.

(** ** The token source

    [fscanf(fid, "%1000s", str)] follows ISO C for the [s] directive with a
    field width: input white-space is skipped, then bytes are read up to the
    first white-space byte, the end of the stream or the field width,
    whichever comes first, and a NUL is stored after them; bytes beyond the
    width stay in the stream.  The call yields EOF when the stream ends
    before a byte of the string is read. *)

Definition isspace (c : char) : bool :=
  (c =? 32) || ((9 <=? c) && (c <=? 13)).

Fixpoint skip_space (s : list char) : list char :=
  match s with
  | [] => []
  | c :: s' => if isspace c then skip_space s' else s
  end.

Fixpoint scan_word (width : nat) (s : list char) : list char * list char :=
  match width, s with
  | S width', c :: s' =>
      if isspace c then ([], s)
      else let '(str, rest) := scan_word width' s' in (c :: str, rest)
  | _, _ => ([], s)
  end.

(** [None] is EOF; otherwise the buffer [str] and the stream that is left. *)
Definition fscanf_s (width : nat) (fid : list char)
  : option (list char * list char) :=
  match skip_space fid with
  | [] => None
  | s => Some (scan_word width s)
  end.

(** ** The diagnostic sink and the run *)

(** The messages [get_counts] writes to [logfile], with the number each
    prints. *)
Inductive logmsg : Type :=
| BUILDING_VOCABULARY
| Processed_tokens_head (i : Z)       (* "Processed %lld tokens." *)
| Progress_tokens (i : Z)             (* "\033[11G%lld tokens." *)
| Processed_tokens (i : Z)            (* "\033[0GProcessed %lld tokens.\n" *)
| Counted_unique_words (j : Z)
| Truncating_at_min_count (m : Z)
| Truncating_at_size (m : Z)
| Using_vocabulary_of_size (i : Z).

(** The global variables [verbose], [min_count] and [max_vocab]. *)
Record globals : Type :=
  mkGlobals { verbose : Z; min_count : Z; max_vocab : Z }.

(** Their initialisers: [verbose = 2], [min_count = 1], [max_vocab = 0]. *)
Definition initial_globals : globals := mkGlobals 2 1 0.

(** [if (verbose > level) fprintf(logfile, ...)]. *)
Definition log_if (g : globals) (level : Z) (m : logmsg)
    (logfile : list logmsg) : list logmsg :=
  if verbose g >? level then logfile ++ [m] else logfile.

(** The [while (fscanf(...) != EOF)] loop.  Every round that does not end
    the loop takes at least one byte from the stream, so [length fid]
    rounds of fuel are never used up (lemmas [tokens_fuel_stable] and
    [count_loop_counts]). *)
Fixpoint count_loop (fuel : nat) (g : globals) (fid : list char)
    (ht : hashtable) (i : Z) (logfile : list logmsg)
  : hashtable * Z * list logmsg :=
  match fuel with
  | O => (ht, i, logfile)
  | S fuel' =>
      match fscanf_s (Z.to_nat MAX_STRING_LENGTH) fid with
      | None => (ht, i, logfile)
      | Some (str, fid') =>
          let ht' := hashinsert ht str in
          let i' := wrap64 (i + 1) in
          let logfile' :=
            if Z.rem i' 100000 =? 0
            then log_if g 1 (Progress_tokens i') logfile else logfile in
          count_loop fuel' g fid' ht' i' logfile'
      end
  end.

(** The sequence of buffers the loop passes to [hashinsert]. *)
Fixpoint tokens_fuel (fuel : nat) (fid : list char) : list (list char) :=
  match fuel with
  | O => []
  | S fuel' =>
      match fscanf_s (Z.to_nat MAX_STRING_LENGTH) fid with
      | None => []
      | Some (str, fid') => str :: tokens_fuel fuel' fid'
      end
  end.

(** The tokens of a corpus. *)
Definition tokens (fid : list char) : list (list char) :=
  tokens_fuel (length fid) fid.

(** The emission loop over the first [max_vocab] entries: it stops at the
    first entry whose count is below [min_count]; [emit] is what it prints
    and [emit_breaks] tells whether it ends by [break]. *)
Fixpoint emit (min_count : Z) (vocab : list VOCAB) : list VOCAB :=
  match vocab with
  | [] => []
  | v :: vocab' =>
      if count v <? min_count then [] else v :: emit min_count vocab'
  end.

Fixpoint emit_breaks (min_count : Z) (vocab : list VOCAB) : bool :=
  match vocab with
  | [] => false
  | v :: vocab' =>
      if count v <? min_count then true else emit_breaks min_count vocab'
  end.

(** The two comparison functions [get_counts] passes to [qsort]. *)
Inductive comparator : Type := Compare_Vocab | Compare_VocabTie.

Definition compar (c : comparator) : VOCAB -> VOCAB -> Z :=
  match c with
  | Compare_Vocab => CompareVocab
  | Compare_VocabTie => CompareVocabTie
  end.

(** The state of [get_counts] when the array is ranked, before the emission
    loop: the array, the value of [max_vocab], the number [j] of entries
    migrated from the table, the messages written to [logfile] and the
    calls of [qsort] so far (number of elements and comparator). *)
Record ranked : Type := mkRanked {
  vocab : list VOCAB;
  max_vocab_final : Z;
  j_final : Z;
  ranked_log : list logmsg;
  qsort_calls : list (nat * comparator)
}.

(** What a run of [get_counts] leaves behind: the lines written to [fout]
    (one entry each), the messages written to [logfile], the final value of
    the loop index [i], and the ranked state. *)
Record run : Type := mkRun {
  fout : list VOCAB;
  logfile : list logmsg;
  i_final : Z;
  before_emission : ranked
}.

(** How a call ends.  [fopen] gives NULL when a file cannot be opened;
    [get_counts] passes its streams to [fscanf], [fprintf] and [fclose]
    without a test, which C leaves undefined for a null stream. *)
Inductive outcome : Type :=
| Exited (status : Z)
| Returned (ret : Z) (r : run)
| Undefined_null_stream (logfile_so_far : list logmsg).

Section GetCounts.

(** [qsort] of the C library, as a function of the comparator and of the
    elements it is given. *)
Variable qsort : (VOCAB -> VOCAB -> Z) -> list VOCAB -> list VOCAB.

(** [qsort(base, nmemb, sizeof(VOCAB), compar)]: the first [nmemb]
    elements are sorted in place, the others stay. *)
Definition qsort_array (base : list VOCAB) (nmemb : nat)
    (c : comparator) : list VOCAB :=
  qsort (compar c) (take nmemb base) ++ drop nmemb base.

(** [get_counts] from the token loop to the second [qsort]. *)
Definition get_counts_rank (g : globals) (fid : list char) : ranked :=
  let log := [BUILDING_VOCABULARY] in
  let log := log_if g 1 (Processed_tokens_head 0) log in
  let '(vocab_hash, i, log) :=
    count_loop (length fid) g fid inithashtable 0 log in
  let log := log_if g 1 (Processed_tokens i) log in
  let vocab := migrate vocab_hash in
  let j := Z.of_nat (length vocab) in
  let log := log_if g 1 (Counted_unique_words j) log in
  let limited := (max_vocab g >? 0) && (max_vocab g <? j) in
  let vocab :=
    if limited then qsort_array vocab (Z.to_nat j) Compare_Vocab
    else vocab in
  let max_vocab := if limited then max_vocab g else j in
  let vocab := qsort_array vocab (Z.to_nat max_vocab) Compare_VocabTie in
  {| vocab := vocab;
     max_vocab_final := max_vocab;
     j_final := j;
     ranked_log := log;
     qsort_calls :=
       (if limited then [(Z.to_nat j, Compare_Vocab)] else [])
       ++ [(Z.to_nat max_vocab, Compare_VocabTie)] |}.

(** The entries the emission loop ranges over. *)
Definition ranked_prefix (k : ranked) : list VOCAB :=
  take (Z.to_nat (max_vocab_final k)) (vocab k).

(** [get_counts] with both data streams open. *)
Definition get_counts_run (g : globals) (fid : list char) : run :=
  let k := get_counts_rank g fid in
  let out := emit (min_count g) (ranked_prefix k) in
  let log := ranked_log k in
  let log :=
    if emit_breaks (min_count g) (ranked_prefix k)
    then log_if g 0 (Truncating_at_min_count (min_count g)) log
    else log in
  let i := Z.of_nat (length out) in
  let log :=
    if (i =? max_vocab_final k) && (max_vocab_final k <? j_final k)
    then log_if g 0 (Truncating_at_size (max_vocab_final k)) log
    else log in
  let log := log ++ [Using_vocabulary_of_size i] in
  {| fout := out; logfile := log; i_final := i; before_emission := k |}.

(** [get_counts]; [fid] is [None] when [fopen(corpus_file, "rb")] fails
    and [fout_open] is [false] when [fopen(output_file, "wb")] fails.
    A null [fid] reaches [fscanf] right after the first messages; a null
    [fout] reaches [fprintf] at the first entry to print, or [fclose]
    when the loop prints nothing. *)
Definition get_counts (g : globals) (fid : option (list char))
    (fout_open : bool) : outcome :=
  match fid with
  | None =>
      Undefined_null_stream
        (log_if g 1 (Processed_tokens_head 0) [BUILDING_VOCABULARY])
  | Some input =>
      if fout_open then Returned 0 (get_counts_run g input)
      else
        let k := get_counts_rank g input in
        match ranked_prefix k with
        | v :: _ =>
            if count v <? min_count g
            then Undefined_null_stream
                   (log_if g 0 (Truncating_at_min_count (min_count g))
                      (ranked_log k))
            else Undefined_null_stream (ranked_log k)
        | [] => Undefined_null_stream (ranked_log k)
        end
  end.

(** [vocab_count]: [logfile_open] is [false] when
    [fopen(log_file, "w")] fails, and the call then ends in [exit(1)]. *)
Definition vocab_count (fid : option (list char)) (fout_open : bool)
    (verbosity max_vocab_count min_word_count : Z) (logfile_open : bool)
  : outcome :=
  if negb logfile_open then Exited 1
  else
    let g := mkGlobals verbosity min_word_count max_vocab_count in
    get_counts g fid fout_open.

End GetCounts.

(** The decimal digits [%lld] prints. *)
Definition decimal (z : Z) : list char :=
  (fun a => Z.of_N (Ascii.N_of_ascii a)) <$>
    String.list_ascii_of_string
      (DecimalString.NilZero.string_of_int (Z.to_int z)).

(** [fprintf(fout, "%s %lld\n", vocab[i].word, vocab[i].count)]. *)
Definition fprintf_entry (v : VOCAB) : list char :=
  cstr (word v) ++ [32] ++ decimal (count v) ++ [10].

(** The bytes of the output stream. *)
Definition fout_bytes (r : run) : list char :=
  concat (fprintf_entry <$> fout r).

(** An implementation of the [qsort] contract, to run the model: insertion
    sort driven by the comparator. *)
Fixpoint insert_sorted (cmp : VOCAB -> VOCAB -> Z) (x : VOCAB)
    (l : list VOCAB) : list VOCAB :=
  match l with
  | [] => [x]
  | y :: l' => if cmp x y <=? 0 then x :: l else y :: insert_sorted cmp x l'
  end.

(** Insertion of every element into the sorted list of those after it. *)
Definition insertion_qsort (cmp : VOCAB -> VOCAB -> Z) (l : list VOCAB)
  : list VOCAB :=
  foldr (insert_sorted cmp) [] l.

(** ** Notions used in the statements *)

(** Case analysis on every integer test of the goal. *)
Ltac zeqb_cases :=
  repeat match goal with
    | |- context [Z.eqb ?a ?b] =>
        destruct (Z.eqb_spec a b); simpl in *; subst
    end.

(** The order of [scmp] on two C strings: lexicographic, the bytes compared
    as values of type [char] (negative for the bytes above 127 where
    [char] is signed); the first position where the strings differ decides,
    and where one string has ended, its byte there is the NUL. *)
Fixpoint lex_lt (a b : list char) : Prop :=
  match a, b with
  | [], [] => False
  | [], y :: _ => 0 < y
  | x :: _, [] => x < 0
  | x :: a', y :: b' => x < y \/ (x = y /\ lex_lt a' b')
  end.

(** The byte that holds a value of type [char]: a number from 0 to 255,
    the value itself where [char] is unsigned, and the value plus 256 for a
    negative value of a signed [char]. *)
Definition byte_of (c : char) : Z := c mod 256.

(** Byte-wise lexicographic order of two words: the first position where
    the bytes differ decides, the smaller byte (as a number from 0 to 255)
    first, and a word comes before every word it is a proper prefix of. *)
Fixpoint bytewise_lt (a b : list char) : Prop :=
  match a, b with
  | _, [] => False
  | [], _ :: _ => True
  | x :: a', y :: b' =>
      byte_of x < byte_of y \/ (byte_of x = byte_of y /\ bytewise_lt a' b')
  end.

(** Counts the table can hold after fewer than [2^63] tokens. *)
Definition count_in_range (v : VOCAB) : Prop := 1 <= count v <= LLONG_MAX.

(** What ISO C asks of a comparison function on the elements it is given:
    the sign of [cmp b a] is the opposite of the sign of [cmp a b], and
    "not after" is transitive. *)
Definition consistent (cmp : VOCAB -> VOCAB -> Z) (l : list VOCAB) : Prop :=
  (forall a b, a ∈ l -> b ∈ l -> (cmp a b < 0 <-> 0 < cmp b a)) /\
  (forall a b c, a ∈ l -> b ∈ l -> c ∈ l ->
     cmp a b <= 0 -> cmp b c <= 0 -> cmp a c <= 0).

(** Adjacent elements are in the order of the comparison. *)
Definition sorted_by (cmp : VOCAB -> VOCAB -> Z) : list VOCAB -> Prop :=
  Sorted (fun a b => cmp a b <= 0).

(** What ISO C promises of [qsort] for such a comparison function: the array
    holds the same elements, in ascending order of the comparison.  The
    order of elements that compare equal is left open. *)
Definition qsort_contract
    (qsort : (VOCAB -> VOCAB -> Z) -> list VOCAB -> list VOCAB) : Prop :=
  forall cmp l, consistent cmp l ->
    qsort cmp l ≡ₚ l /\ sorted_by cmp (qsort cmp l).

(** The test that lets the scan of [hashinsert] pass a record. *)
Definition differs_from (w : list char) (r : HASHREC) : Prop :=
  scmp (hword r) w <> 0.

(** The bucket index [hval] of a word. *)
Definition bucket_of (w : list char) : nat :=
  Z.to_nat (HASHFN w TSIZE SEED).

(** A chain of bucket [i] holds NUL-free words that hash to [i], each
    once. *)
Definition chain_ok (i : nat) (chain : list HASHREC) : Prop :=
  NoDup (hword <$> chain) /\
  Forall (fun r => cstr (hword r) = hword r /\ bucket_of (hword r) = i) chain.

(** The tables the counting phase reaches: [TSIZE] chains, each in order. *)
Definition table_ok (ht : hashtable) : Prop :=
  length ht = Z.to_nat TSIZE /\
  forall i chain, ht !! i = Some chain -> chain_ok i chain.

(** The sum of the counts of the records. *)
Definition sum_counts (l : list HASHREC) : Z :=
  foldr (fun r acc => hcount r + acc) 0 l.

(** The table after [n] tokens, as long as [n] fits a [long long]: every
    count is at least 1 and the counts add up to [n]. *)
Definition counts_ok (n : Z) (ht : list (list HASHREC)) : Prop :=
  Forall (fun r => 1 <= hcount r) (entries ht) /\ sum_counts (entries ht) = n.

(** The counting phase: [hashinsert] over the tokens, from the empty
    table. *)
Definition count_tokens (toks : list (list char)) : list (list HASHREC) :=
  foldl hashinsert inithashtable toks.

(** The array [get_counts] migrates from the table for a corpus. *)
Definition corpus_vocab (fid : list char) : list VOCAB :=
  migrate (count_tokens (tokens fid)).

(** The test [max_vocab > 0 && max_vocab < j]. *)
Definition size_limited (g : globals) (j : Z) : bool :=
  (max_vocab g >? 0) && (max_vocab g <? j).

(** The value [max_vocab] has when the array is sorted and printed. *)
Definition cutoff (g : globals) (j : Z) : Z :=
  if size_limited g j then max_vocab g else j.

(** The array after the conditional first sort. *)
Definition presorted
    (qsort : (VOCAB -> VOCAB -> Z) -> list VOCAB -> list VOCAB)
    (g : globals) (fid : list char) : list VOCAB :=
  let v := corpus_vocab fid in
  let j := Z.of_nat (length v) in
  if size_limited g j
  then qsort_array qsort v (Z.to_nat j) Compare_Vocab else v.

(** Entries with distinct NUL-free words and counts that do not wrap. *)
Definition vocab_ok (l : list VOCAB) : Prop :=
  NoDup (word <$> l) /\ Forall count_in_range l /\
  Forall (fun v => cstr (word v) = word v) l.

(** A plain associative map from token to count: [observe] inserts the token
    with count 1 or increments its count; nothing is reordered. *)
Definition plain_observe (m : gmap (list Z) Z) (w : list char)
  : gmap (list Z) Z :=
  let k := cstr w in
  match m !! k with
  | Some c => <[k := wrap64 (c + 1)]> m
  | None => <[k := 1]> m
  end.

(** The plain map after the tokens. *)
Definition plain_count (toks : list (list char)) : gmap (list Z) Z :=
  foldl plain_observe ∅ toks.

(** The (word, count) pairs the table enumerates. *)
Definition table_pairs (ht : list (list HASHREC)) : list (list Z * Z) :=
  (fun r => (hword r, hcount r)) <$> entries ht.

(** [a] is ranked before [b]: a larger count, or the same count and a word
    that is smaller in the order of [scmp]. *)
Definition ranks_before (a b : VOCAB) : Prop :=
  count a > count b \/ (count a = count b /\ lex_lt (word a) (word b)).

(** The same with the byte-wise lexicographic order of the words. *)
Definition ranks_bytewise (a b : VOCAB) : Prop :=
  count a > count b \/
  (count a = count b /\ bytewise_lt (word a) (word b)).


(** How often the string [k] occurs among the tokens. *)
Definition occurrences (k : list Z) (toks : list (list char)) : Z :=
  Z.of_nat (length (filter (fun w => cstr w = k) toks)).

(** What may follow a run: the end of the stream or a white-space byte. *)
Definition run_end (rest : list char) : Prop :=
  match rest with
  | [] => True
  | c :: _ => isspace c = true
  end.

(** What may come before a run: the start of the stream or a white-space
    byte. *)
Definition run_start (pre : list char) : Prop :=
  match last pre with
  | None => True
  | Some c => isspace c = true
  end.

(** The field width of the [fscanf] format. *)
Definition field_width : nat := Z.to_nat MAX_STRING_LENGTH.

(** A run of [L] bytes cut after every [n] bytes: piece [k] holds the bytes
    from position [k * n] up to, not including, position [(k + 1) * n], and
    there are [L / n] pieces, rounded up. *)
Definition pieces (n : nat) (run : list char) : list (list char) :=
  (fun k => take n (drop (k * n) run))
    <$> seq 0 ((length run + n - 1) / n).

(** Two runs of 1001 bytes that share their first 1000 bytes. *)
Definition long_run_b : list char := replicate 1000 97 ++ [98].
Definition long_run_c : list char := replicate 1000 97 ++ [99].

(** Entry [b] has no larger count than entry [a]. *)
Definition count_descends (a b : VOCAB) : Prop := count b <= count a.

(** Words written one after the other, each followed by the byte [sep]. *)
Definition join_words (sep : char) (ws : list (list char)) : list char :=
  mjoin ((fun w => w ++ [sep]) <$> ws).

(** The test of the scan is decidable. *)
Global Instance differs_from_dec (w : list char) (r : HASHREC) :
  Decision (differs_from w r) :=
  decide (scmp (hword r) w <> 0).

(** A second implementation of the [qsort] contract, which meets elements
    that compare equal in the opposite order. *)
Definition reversed_insertion_qsort (cmp : VOCAB -> VOCAB -> Z)
    (l : list VOCAB) : list VOCAB :=
  insertion_qsort cmp (reverse l).

(** * Properties *)

(** ** Integer reductions *)

Lemma wrap64_small (z : Z) : - 2 ^ 63 <= z < 2 ^ 63 -> wrap64 z = z.
Proof.
  intros Hz. unfold wrap64.
  rewrite Z.mod_small by lia. lia.
Qed.

Lemma wrap64_range (z : Z) : - 2 ^ 63 <= wrap64 z < 2 ^ 63.
Proof.
  unfold wrap64.
  pose proof (Z.mod_pos_bound (z + 2 ^ 63) (2 ^ 64) ltac:(lia)). lia.
Qed.

Lemma bitwisehash_range (w : list char) (seed : Z) :
  0 <= bitwisehash w TSIZE seed < TSIZE.
Proof. unfold bitwisehash. apply Z.mod_pos_bound. reflexivity. Qed.

(** ** C strings and [scmp] *)

Lemma cstr_idemp (s : list char) : cstr (cstr s) = cstr s.
Proof.
  induction s as [|c s IH]; simpl; [done|].
  destruct (c =? 0) eqn:Hc; simpl; [done|]. by rewrite Hc, IH.
Qed.

Lemma cstr_nul_free (s : list char) : Forall (fun c => c <> 0) (cstr s).
Proof.
  induction s as [|c s IH]; simpl; [constructor|].
  destruct (Z.eqb_spec c 0); [constructor|]. by constructor.
Qed.

Lemma cstr_fixed (s : list char) : Forall (fun c => c <> 0) s -> cstr s = s.
Proof.
  induction 1 as [|c s Hc _ IH]; simpl; [done|].
  destruct (Z.eqb_spec c 0); [done|]. by rewrite IH.
Qed.

Lemma cstr_length (s : list char) : (length (cstr s) <= length s)%nat.
Proof.
  induction s as [|c s IH]; simpl; [done|].
  destruct (c =? 0); simpl; lia.
Qed.

Lemma scmp_cstr (s1 s2 : list char) : scmp (cstr s1) (cstr s2) = scmp s1 s2.
Proof.
  revert s2. induction s1 as [|c1 s1 IH]; intros [|c2 s2]; simpl;
    zeqb_cases; try done; try lia.
Qed.

Lemma scmp_antisym (s1 s2 : list char) : scmp s2 s1 = - scmp s1 s2.
Proof.
  revert s2. induction s1 as [|c1 s1 IH]; intros [|c2 s2]; simpl;
    zeqb_cases; try done; try lia.
Qed.

Lemma scmp_eq_0 (s1 s2 : list char) : scmp s1 s2 = 0 <-> cstr s1 = cstr s2.
Proof.
  revert s2. induction s1 as [|c1 s1 IH]; intros [|c2 s2]; simpl;
    zeqb_cases; try (split; (done || lia || congruence)).
  rewrite IH. split; [by intros ->|by intros [= ->]].
Qed.

Lemma byte_of_small (c : char) : 0 <= c <= 255 -> byte_of c = c.
Proof. intros Hc. unfold byte_of. apply Z.mod_small. lia. Qed.

Lemma lex_lt_bytewise_lt (a b : list char) :
  Forall (fun c => 0 < c <= 255) a -> Forall (fun c => 0 < c <= 255) b ->
  lex_lt a b <-> bytewise_lt a b.
Proof.
  intros Ha. revert b. induction Ha as [|x a Hx Ha IH]; intros b Hb.
  - destruct Hb; simpl; [done|]. split; [done|lia].
  - destruct Hb as [|y b Hy Hb]; simpl; [lia|].
    rewrite (byte_of_small x), (byte_of_small y) by lia.
    by rewrite (IH b Hb).
Qed.

Lemma lex_lt_irrefl (a : list char) : ~ lex_lt a a.
Proof.
  induction a as [|x a IH]; simpl; intros H; [done|].
  destruct H as [?|[_ ?]]; [lia|done].
Qed.

Lemma lex_lt_trans (a b c : list char) : lex_lt a b -> lex_lt b c -> lex_lt a c.
Proof.
  revert b c. induction a as [|x a IH]; intros [|y b] [|z c]; simpl;
    try lia.
  intros [?|[-> Hab]] [?|[-> Hbc]]; try (left; lia).
  right. split; [done|]. by apply (IH b).
Qed.

Lemma scmp_lt_0 (s1 s2 : list char) :
  scmp s1 s2 < 0 <-> lex_lt (cstr s1) (cstr s2).
Proof.
  revert s2. induction s1 as [|c1 s1 IH]; intros [|c2 s2]; simpl;
    zeqb_cases; try lia.
  rewrite IH. split; [by right|]. intros [?|[_ ?]]; [lia|done].
Qed.

Lemma scmp_le_0 (s1 s2 : list char) :
  scmp s1 s2 <= 0 <-> lex_lt (cstr s1) (cstr s2) \/ cstr s1 = cstr s2.
Proof. rewrite <- scmp_lt_0, <- scmp_eq_0. lia. Qed.

Lemma scmp_le_trans (s1 s2 s3 : list char) :
  scmp s1 s2 <= 0 -> scmp s2 s3 <= 0 -> scmp s1 s3 <= 0.
Proof.
  rewrite !scmp_le_0. intros [H12|H12] [H23|H23].
  - left. by apply (lex_lt_trans _ (cstr s2)).
  - left. by rewrite <- H23.
  - left. by rewrite H12.
  - right. congruence.
Qed.

Lemma bitwisehash_loop_cstr (w : list char) (h : Z) :
  bitwisehash_loop (cstr w) h = bitwisehash_loop w h.
Proof.
  revert h. induction w as [|c w IH]; intros h; simpl; [done|].
  destruct (c =? 0) eqn:Hc; simpl; [done|]. by rewrite Hc, IH.
Qed.

Lemma bitwisehash_cstr (w : list char) (tsize seed : Z) :
  bitwisehash (cstr w) tsize seed = bitwisehash w tsize seed.
Proof. unfold bitwisehash. by rewrite bitwisehash_loop_cstr. Qed.

(** ** The comparators and the contract of [qsort] *)

Lemma count_sub_no_wrap (a b : VOCAB) :
  count_in_range a -> count_in_range b ->
  wrap64 (count b - count a) = count b - count a.
Proof.
  unfold count_in_range, LLONG_MAX. intros Ha Hb.
  apply wrap64_small. lia.
Qed.

Lemma CompareVocabTie_le (a b : VOCAB) :
  count_in_range a -> count_in_range b ->
  CompareVocabTie a b <= 0 <->
  count b < count a \/ (count a = count b /\ scmp (word a) (word b) <= 0).
Proof.
  intros Ha Hb. unfold CompareVocabTie.
  rewrite (count_sub_no_wrap a b Ha Hb).
  destruct (Z.eqb_spec (count b - count a) 0); simpl; [lia|].
  destruct (Z.gtb_spec (count b - count a) 0); lia.
Qed.

Lemma CompareVocabTie_lt (a b : VOCAB) :
  count_in_range a -> count_in_range b ->
  CompareVocabTie a b < 0 <->
  count b < count a \/ (count a = count b /\ scmp (word a) (word b) < 0).
Proof.
  intros Ha Hb. unfold CompareVocabTie.
  rewrite (count_sub_no_wrap a b Ha Hb).
  destruct (Z.eqb_spec (count b - count a) 0); simpl; [lia|].
  destruct (Z.gtb_spec (count b - count a) 0); lia.
Qed.

Lemma CompareVocabTie_gt (a b : VOCAB) :
  count_in_range a -> count_in_range b ->
  0 < CompareVocabTie a b <->
  count a < count b \/ (count a = count b /\ 0 < scmp (word a) (word b)).
Proof.
  intros Ha Hb. unfold CompareVocabTie.
  rewrite (count_sub_no_wrap a b Ha Hb).
  destruct (Z.eqb_spec (count b - count a) 0); simpl; [lia|].
  destruct (Z.gtb_spec (count b - count a) 0); lia.
Qed.

Lemma CompareVocab_le (a b : VOCAB) :
  count_in_range a -> count_in_range b ->
  CompareVocab a b <= 0 <-> count b <= count a.
Proof.
  intros Ha Hb. unfold CompareVocab.
  rewrite (count_sub_no_wrap a b Ha Hb).
  destruct (Z.eqb_spec (count b - count a) 0); simpl; [lia|].
  destruct (Z.gtb_spec (count b - count a) 0); lia.
Qed.

Lemma CompareVocab_lt (a b : VOCAB) :
  count_in_range a -> count_in_range b ->
  CompareVocab a b < 0 <-> count b < count a.
Proof.
  intros Ha Hb. unfold CompareVocab.
  rewrite (count_sub_no_wrap a b Ha Hb).
  destruct (Z.eqb_spec (count b - count a) 0); simpl; [lia|].
  destruct (Z.gtb_spec (count b - count a) 0); lia.
Qed.

Lemma CompareVocab_gt (a b : VOCAB) :
  count_in_range a -> count_in_range b ->
  0 < CompareVocab a b <-> count a < count b.
Proof.
  intros Ha Hb. unfold CompareVocab.
  rewrite (count_sub_no_wrap a b Ha Hb).
  destruct (Z.eqb_spec (count b - count a) 0); simpl; [lia|].
  destruct (Z.gtb_spec (count b - count a) 0); lia.
Qed.

Lemma CompareVocabTie_consistent (l : list VOCAB) :
  Forall count_in_range l -> consistent CompareVocabTie l.
Proof.
  rewrite Forall_forall. intros Hl. split.
  - intros a b Ha Hb.
    rewrite CompareVocabTie_lt, CompareVocabTie_gt by auto.
    rewrite (scmp_antisym (word a) (word b)). lia.
  - intros a b c Ha Hb Hc.
    rewrite !CompareVocabTie_le by auto.
    pose proof (scmp_le_trans (word a) (word b) (word c)). lia.
Qed.

Lemma CompareVocab_consistent (l : list VOCAB) :
  Forall count_in_range l -> consistent CompareVocab l.
Proof.
  rewrite Forall_forall. intros Hl. split.
  - intros a b Ha Hb. rewrite CompareVocab_lt, CompareVocab_gt by auto. lia.
  - intros a b c Ha Hb Hc. rewrite !CompareVocab_le by auto. lia.
Qed.

Lemma compar_consistent (c : comparator) (l : list VOCAB) :
  Forall count_in_range l -> consistent (compar c) l.
Proof.
  destruct c; [apply CompareVocab_consistent|apply CompareVocabTie_consistent].
Qed.

(** Insertion sort keeps the contract. *)
Lemma insert_sorted_perm cmp (x : VOCAB) (l : list VOCAB) :
  insert_sorted cmp x l ≡ₚ x :: l.
Proof.
  induction l as [|y l IH]; simpl; [done|].
  destruct (cmp x y <=? 0); [done|].
  rewrite IH. apply perm_swap.
Qed.

Lemma insertion_qsort_perm cmp (l : list VOCAB) : insertion_qsort cmp l ≡ₚ l.
Proof.
  induction l as [|x l IH]; simpl; [done|].
  unfold insertion_qsort in *. simpl.
  by rewrite insert_sorted_perm, IH.
Qed.

Lemma insert_sorted_sorted cmp (x : VOCAB) (l : list VOCAB) :
  (forall y, y ∈ l -> cmp x y <= 0 \/ cmp y x <= 0) ->
  sorted_by cmp l -> sorted_by cmp (insert_sorted cmp x l).
Proof.
  unfold sorted_by. induction l as [|y l IH]; intros Htot Hs; simpl.
  - by repeat constructor.
  - destruct (Z.leb_spec (cmp x y) 0) as [Hxy|Hxy].
    + constructor; [done|]. by constructor.
    + inversion Hs as [|? ? Hs' Hhd]; subst.
      constructor.
      * apply IH; [|done]. intros z Hz. apply Htot. by right.
      * destruct (Htot y) as [?|Hyx]; [by left|lia|].
        destruct l as [|z l]; simpl; [by constructor|].
        destruct (cmp x z <=? 0); constructor; [done|].
        by inversion Hhd.
Qed.

Lemma insertion_qsort_contract : qsort_contract insertion_qsort.
Proof.
  intros cmp l [Hsign _]. split; [apply insertion_qsort_perm|].
  assert (Htot : forall a b, a ∈ l -> b ∈ l -> cmp a b <= 0 \/ cmp b a <= 0).
  { intros a b Ha Hb. pose proof (Hsign b a Hb Ha). lia. }
  clear Hsign. unfold insertion_qsort.
  induction l as [|x l IH]; simpl; [constructor|].
  apply insert_sorted_sorted.
  - intros y Hy. apply Htot; [by left|].
    right. by rewrite <- (insertion_qsort_perm cmp l).
  - apply IH. intros a b Ha Hb. apply Htot; by right.
Qed.

(** ** The chain scan and [hashinsert] on one chain *)

Lemma chain_scan_spec (w : list char) (chain : list HASHREC) :
  chain = (chain_scan w chain).1 ++ (chain_scan w chain).2 /\
  Forall (differs_from w) (chain_scan w chain).1 /\
  match (chain_scan w chain).2 with
  | [] => True
  | htmp :: _ => scmp (hword htmp) w = 0
  end.
Proof.
  induction chain as [|r next IH]; simpl; [by repeat split|].
  destruct (Z.eqb_spec (scmp (hword r) w) 0) as [Heq|Hne]; simpl.
  - by repeat split.
  - destruct (chain_scan w next) as [passed rest]; simpl in *.
    destruct IH as (-> & Hpassed & Hrest).
    repeat split; [by constructor|done].
Qed.

(** The two ways [hashinsert] leaves a chain: the word is not on it and a
    record with count 1 is linked at its end, or the first record that holds
    the word gets its count incremented and stands at the head. *)
Lemma hashinsert_chain_cases (w : list char) (chain : list HASHREC) :
  (Forall (differs_from w) chain /\
   hashinsert_chain w chain = chain ++ [mkHASHREC (cstr w) 1]) \/
  (exists passed htmp next,
     chain = passed ++ htmp :: next /\
     Forall (differs_from w) passed /\
     scmp (hword htmp) w = 0 /\
     hashinsert_chain w chain = count_incr htmp :: passed ++ next).
Proof.
  unfold hashinsert_chain.
  destruct (chain_scan_spec w chain) as (Hsplit & Hpassed & Hrest).
  destruct (chain_scan w chain) as [passed [|htmp next]]; simpl in *.
  - left. rewrite app_nil_r in Hsplit. subst passed. done.
  - right. exists passed, htmp, next. repeat split; try done.
    by destruct passed.
Qed.

(** ** Well-formed tables *)

Lemma bucket_of_lt (w : list char) : (bucket_of w < Z.to_nat TSIZE)%nat.
Proof.
  unfold bucket_of, HASHFN.
  pose proof (bitwisehash_range w SEED). lia.
Qed.

Lemma bucket_of_cstr (w : list char) : bucket_of (cstr w) = bucket_of w.
Proof. unfold bucket_of, HASHFN. by rewrite bitwisehash_cstr. Qed.

Lemma inithashtable_ok : table_ok inithashtable.
Proof.
  unfold inithashtable. split; [apply length_replicate|].
  intros i chain [-> _]%lookup_replicate. split; constructor.
Qed.

Lemma entries_inithashtable : entries inithashtable = [].
Proof.
  unfold entries, inithashtable.
  induction (Z.to_nat TSIZE) as [|n IH]; simpl; [done|]. apply IH.
Qed.

(** Altering one chain changes the enumeration at that chain only. *)
Lemma entries_alter (f : list HASHREC -> list HASHREC) (ht : hashtable)
    (i : nat) (chain : list HASHREC) :
  ht !! i = Some chain ->
  exists before after,
    entries ht = before ++ chain ++ after /\
    entries (alter f i ht) = before ++ f chain ++ after.
Proof.
  unfold entries. revert i. induction ht as [|c ht IH]; intros [|i] Hi;
    simplify_eq/=.
  - by exists [], (mjoin ht).
  - destruct (IH i Hi) as (before & after & -> & ->).
    exists (c ++ before), after. by rewrite <- !app_assoc.
Qed.

Lemma entries_hashinsert (ht : hashtable) (w : list char) :
  length ht = Z.to_nat TSIZE ->
  exists chain before after,
    ht !! bucket_of w = Some chain /\
    entries ht = before ++ chain ++ after /\
    entries (hashinsert ht w) = before ++ hashinsert_chain w chain ++ after.
Proof.
  intros Hlen.
  destruct (lookup_lt_is_Some_2 ht (bucket_of w)) as [chain Hchain].
  { rewrite Hlen. apply bucket_of_lt. }
  destruct (entries_alter (hashinsert_chain w) ht _ chain Hchain)
    as (before & after & H1 & H2).
  by exists chain, before, after.
Qed.

(** Where the records of a well-formed table are. *)
Lemma table_ok_elem (ht : hashtable) (r : HASHREC) :
  table_ok ht -> r ∈ entries ht ->
  cstr (hword r) = hword r /\
  exists chain, ht !! bucket_of (hword r) = Some chain /\ r ∈ chain.
Proof.
  intros [_ Hok] (chain & Hr & Hchain)%list_elem_of_join.
  apply list_elem_of_lookup in Hchain as [i Hi].
  destruct (Hok i chain Hi) as [_ Hall].
  rewrite Forall_forall in Hall. destruct (Hall r Hr) as [Hc <-].
  split; [done|]. by exists chain.
Qed.

Lemma differs_from_word (w : list char) (r : HASHREC) :
  cstr (hword r) = hword r -> differs_from w r <-> hword r <> cstr w.
Proof.
  intros Hr. unfold differs_from. rewrite scmp_eq_0, Hr. done.
Qed.

Lemma table_ok_NoDup_from (k : nat) (ht : hashtable) :
  (forall i chain, ht !! i = Some chain -> chain_ok (k + i) chain) ->
  NoDup (hword <$> mjoin ht).
Proof.
  revert k. induction ht as [|c ht IH]; intros k Hok; simpl; [constructor|].
  rewrite fmap_app. apply NoDup_app. split; [|split].
  - destruct (Hok O c eq_refl) as [Hnd _]. done.
  - intros w (r & -> & Hr)%list_elem_of_fmap (r' & Hw & Hr')%list_elem_of_fmap.
    apply list_elem_of_join in Hr' as (c' & Hr' & Hc').
    apply list_elem_of_lookup in Hc' as [i Hi].
    destruct (Hok O c eq_refl) as [_ Hall].
    destruct (Hok (S i) c' Hi) as [_ Hall'].
    rewrite Forall_forall in Hall, Hall'.
    destruct (Hall r Hr) as [_ Hb]. destruct (Hall' r' Hr') as [_ Hb'].
    rewrite Hw in Hb. lia.
  - apply (IH (S k)). intros i chain Hi.
    replace (S k + i)%nat with (k + S i)%nat by lia. by apply Hok.
Qed.

(** Uniqueness: a well-formed table holds every word at most once. *)
Lemma table_ok_NoDup (ht : hashtable) :
  table_ok ht -> NoDup (hword <$> entries ht).
Proof. intros [_ Hok]. by apply (table_ok_NoDup_from O). Qed.

(** ** [hashinsert] on well-formed tables *)

Lemma hashinsert_chain_ok (i : nat) (w : list char) (chain : list HASHREC) :
  chain_ok i chain -> bucket_of w = i -> chain_ok i (hashinsert_chain w chain).
Proof.
  intros [Hnd Hall] Hi.
  destruct (hashinsert_chain_cases w chain)
    as [[Hdiff ->]|(passed & htmp & next & -> & Hdiff & Hhit & ->)].
  - split.
    + rewrite fmap_app. apply NoDup_app. repeat split; [done| |].
      * intros x (r & -> & Hr)%list_elem_of_fmap Hx.
        apply list_elem_of_singleton in Hx. simpl in Hx.
        rewrite Forall_forall in Hall, Hdiff.
        destruct (Hall r Hr) as [Hc _].
        by apply (proj1 (differs_from_word w r Hc) (Hdiff r Hr)).
      * apply NoDup_singleton.
    + apply Forall_app. split; [done|]. constructor; [|constructor].
      simpl. by rewrite cstr_idemp, bucket_of_cstr.
  - split.
    + change (NoDup (hword <$> (htmp :: passed ++ next))).
      by rewrite Permutation_middle.
    + change (Forall (fun r => cstr (hword r) = hword r /\ bucket_of (hword r) = i)
                ([count_incr htmp] ++ passed ++ next)).
      rewrite Forall_app in Hall. destruct Hall as [Hp Hn].
      inversion Hn as [|? ? Hh Hn']; subst.
      rewrite !Forall_app. repeat split; try done.
      by constructor.
Qed.

Lemma hashinsert_ok (ht : list (list HASHREC)) (w : list char) :
  table_ok ht -> table_ok (hashinsert ht w).
Proof.
  intros [Hlen Hok]. unfold hashinsert. fold (bucket_of w). split.
  - by rewrite length_alter.
  - intros j chain'. destruct (decide (bucket_of w = j)) as [<-|Hne].
    + rewrite list_lookup_alter_eq.
      destruct (ht !! bucket_of w) as [chain|] eqn:Hchain; [|done].
      intros [= <-]. apply hashinsert_chain_ok; [|done]. by apply Hok.
    + rewrite list_lookup_alter_ne by done. apply Hok.
Qed.

(** The enumeration after [hashinsert], up to the order of the records:
    either the word was absent and one record with count 1 joins, or the
    one record of the word has its count incremented; every other record is
    the same. *)
Lemma hashinsert_entries (ht : list (list HASHREC)) (w : list char) :
  table_ok ht ->
  ((cstr w ∉ hword <$> entries ht) /\
   entries (hashinsert ht w) ≡ₚ entries ht ++ [mkHASHREC (cstr w) 1]) \/
  (exists r others,
     hword r = cstr w /\
     entries ht ≡ₚ r :: others /\
     entries (hashinsert ht w) ≡ₚ count_incr r :: others).
Proof.
  intros Hok.
  destruct (entries_hashinsert ht w (proj1 Hok))
    as (chain & before & after & Hchain & Hent & Hent').
  destruct (hashinsert_chain_cases w chain)
    as [[Hdiff Hins]|(passed & htmp & next & Hsplit & Hdiff & Hhit & Hins)].
  - left. split.
    + intros (r & Hw & Hr)%list_elem_of_fmap.
      destruct (table_ok_elem ht r Hok Hr) as (Hc & chain' & Hchain' & Hr').
      rewrite <- Hw, bucket_of_cstr, Hchain in Hchain'.
      injection Hchain' as <-.
      rewrite Forall_forall in Hdiff.
      by apply (proj1 (differs_from_word w r Hc) (Hdiff r Hr')).
    + rewrite Hent', Hent, Hins. solve_Permutation.
  - right. exists htmp, (before ++ passed ++ next ++ after).
    assert (Hin : htmp ∈ entries ht).
    { rewrite Hent, Hsplit. set_solver. }
    destruct (table_ok_elem ht htmp Hok Hin) as (Hc & _).
    repeat split.
    + apply scmp_eq_0 in Hhit. congruence.
    + rewrite Hent, Hsplit. solve_Permutation.
    + rewrite Hent', Hins. solve_Permutation.
Qed.

(** ** Counts *)

Lemma sum_counts_app (l1 l2 : list HASHREC) :
  sum_counts (l1 ++ l2) = sum_counts l1 + sum_counts l2.
Proof. induction l1 as [|r l1 IH]; simpl; [done|]. rewrite IH. lia. Qed.

Lemma sum_counts_perm (l1 l2 : list HASHREC) :
  l1 ≡ₚ l2 -> sum_counts l1 = sum_counts l2.
Proof. induction 1; simpl; lia. Qed.

Lemma sum_counts_bound (l : list HASHREC) (r : HASHREC) :
  Forall (fun r => 1 <= hcount r) l -> r ∈ l -> hcount r <= sum_counts l.
Proof.
  induction 1 as [|r' l Hr' Hl IH]; intros Hin; [by inversion Hin|].
  assert (0 <= sum_counts l).
  { clear -Hl. induction Hl; simpl; lia. }
  apply elem_of_cons in Hin as [->|Hin]; simpl; [lia|].
  specialize (IH Hin). lia.
Qed.

Lemma hashinsert_counts_ok (n : Z) (ht : list (list HASHREC)) (w : list char) :
  table_ok ht -> counts_ok n ht -> n < LLONG_MAX ->
  counts_ok (n + 1) (hashinsert ht w).
Proof.
  intros Hok [Hpos Hsum] Hn.
  destruct (hashinsert_entries ht w Hok)
    as [[_ Hperm]|(r & others & _ & Hperm & Hperm')].
  - split.
    + rewrite Hperm. apply Forall_app. split; [done|]. by repeat constructor.
    + rewrite (sum_counts_perm _ _ Hperm), sum_counts_app. simpl. lia.
  - assert (Hr : hcount r <= n).
    { rewrite <- Hsum. apply sum_counts_bound; [done|].
      rewrite Hperm. by left. }
    assert (Hr1 : 1 <= hcount r).
    { rewrite Forall_forall in Hpos. apply Hpos. rewrite Hperm. by left. }
    assert (Hincr : hcount (count_incr r) = hcount r + 1).
    { simpl. apply wrap64_small. unfold LLONG_MAX in Hn. lia. }
    rewrite Hperm in Hpos. apply Forall_cons in Hpos as [_ Hothers].
    split.
    + rewrite Hperm'. constructor; [lia|done].
    + rewrite (sum_counts_perm _ _ Hperm').
      change (hcount (count_incr r) + sum_counts others = n + 1).
      pose proof (sum_counts_perm _ _ Hperm) as Hs.
      change (sum_counts (entries ht) = hcount r + sum_counts others) in Hs.
      lia.
Qed.

Lemma foldl_hashinsert_ok (toks : list (list char)) (ht : list (list HASHREC)) :
  table_ok ht -> table_ok (foldl hashinsert ht toks).
Proof.
  revert ht. induction toks as [|w toks IH]; intros ht Hok; simpl; [done|].
  apply IH. by apply hashinsert_ok.
Qed.

Lemma count_tokens_ok (toks : list (list char)) : table_ok (count_tokens toks).
Proof. apply foldl_hashinsert_ok, inithashtable_ok. Qed.

Lemma foldl_hashinsert_counts_ok (toks : list (list char))
    (ht : list (list HASHREC)) (n : Z) :
  table_ok ht -> counts_ok n ht -> n + Z.of_nat (length toks) <= LLONG_MAX ->
  counts_ok (n + Z.of_nat (length toks)) (foldl hashinsert ht toks).
Proof.
  revert ht n. induction toks as [|w toks IH]; intros ht n Hok Hc Hn; simpl.
  - by rewrite Z.add_0_r.
  - simpl length in Hn.
    replace (n + Z.of_nat (S (length toks)))
      with ((n + 1) + Z.of_nat (length toks)) by lia.
    apply IH; [by apply hashinsert_ok| |lia].
    apply hashinsert_counts_ok; [done|done|lia].
Qed.

Lemma count_tokens_counts_ok (toks : list (list char)) :
  Z.of_nat (length toks) <= LLONG_MAX ->
  counts_ok (Z.of_nat (length toks)) (count_tokens toks).
Proof.
  intros Hn.
  apply (foldl_hashinsert_counts_ok toks inithashtable 0);
    [apply inithashtable_ok| |lia].
  split; rewrite entries_inithashtable; [constructor|done].
Qed.

(** ** The token source *)

Lemma skip_space_length (s : list char) :
  (length (skip_space s) <= length s)%nat.
Proof.
  induction s as [|c s IH]; simpl; [done|].
  destruct (isspace c); simpl; lia.
Qed.

Lemma scan_word_spec (width : nat) (s : list char) :
  s = (scan_word width s).1 ++ (scan_word width s).2 /\
  (length (scan_word width s).1 <= width)%nat /\
  Forall (fun c => isspace c = false) (scan_word width s).1.
Proof.
  revert s. induction width as [|width IH]; intros [|c s]; simpl;
    try (repeat split; (done || lia || constructor)).
  destruct (isspace c) eqn:Hc; simpl; [repeat split; (done || lia)|].
  specialize (IH s). destruct (scan_word width s) as [str rest]; simpl in *.
  destruct IH as (-> & Hlen & Hns).
  repeat split; [lia|by constructor].
Qed.

(** A successful [fscanf] with a positive width stores at least one byte
    and shortens the stream. *)
Lemma fscanf_s_consumes (width : nat) (fid str rest : list char) :
  fscanf_s (S width) fid = Some (str, rest) ->
  (length rest < length fid)%nat /\ str <> [] /\ (length str <= S width)%nat.
Proof.
  unfold fscanf_s. pose proof (skip_space_length fid) as Hlen.
  destruct (skip_space fid) as [|c s] eqn:Hs; [done|].
  assert (Hc : isspace c = false).
  { clear Hlen. induction fid as [|d fid IH]; simpl in Hs; [done|].
    destruct (isspace d) eqn:Hd; [by apply IH|]. congruence. }
  intros [= Hscan]. simpl in Hscan. rewrite Hc in Hscan.
  pose proof (scan_word_spec width s) as (Hsplit & Hw & _).
  destruct (scan_word width s) as [str' rest']. simpl in *.
  injection Hscan as <- <-.
  apply (f_equal length) in Hsplit. rewrite length_app in Hsplit.
  simpl. repeat split; [lia|done|lia].
Qed.

Lemma MAX_STRING_LENGTH_pos :
  exists width, Z.to_nat MAX_STRING_LENGTH = S width.
Proof. by exists 999%nat. Qed.

Lemma fscanf_s_nil (width : nat) : fscanf_s width [] = None.
Proof. done. Qed.

(** The fuel of the token loop: any amount from [length fid] on gives the
    same tokens. *)
Lemma tokens_fuel_stable (fuel1 fuel2 : nat) (fid : list char) :
  (length fid <= fuel1)%nat -> (length fid <= fuel2)%nat ->
  tokens_fuel fuel1 fid = tokens_fuel fuel2 fid.
Proof.
  destruct MAX_STRING_LENGTH_pos as [width Hwidth].
  revert fuel2 fid.
  induction fuel1 as [|fuel1 IH]; intros [|fuel2] fid H1 H2; simpl;
    try done.
  - destruct fid; [done|simpl in H1; lia].
  - destruct fid; [done|simpl in H2; lia].
  - rewrite Hwidth.
    destruct (fscanf_s (S width) fid) as [[str fid']|] eqn:Hscan; [|done].
    apply fscanf_s_consumes in Hscan as (Hlt & _).
    f_equal. apply IH; lia.
Qed.

(** The loop equation of the token source. *)
Lemma tokens_unfold (fid : list char) :
  tokens fid =
    match fscanf_s (Z.to_nat MAX_STRING_LENGTH) fid with
    | None => []
    | Some (str, fid') => str :: tokens fid'
    end.
Proof.
  destruct MAX_STRING_LENGTH_pos as [width Hwidth].
  unfold tokens. destruct fid as [|c fid]; [done|].
  simpl length. simpl tokens_fuel. rewrite Hwidth.
  destruct (fscanf_s (S width) (c :: fid)) as [[str fid']|] eqn:Hscan;
    [|done].
  apply fscanf_s_consumes in Hscan as (Hlt & _). simpl in Hlt.
  f_equal. apply tokens_fuel_stable; lia.
Qed.

Lemma tokens_fuel_length (fuel : nat) (fid : list char) :
  (length (tokens_fuel fuel fid) <= length fid)%nat.
Proof.
  destruct MAX_STRING_LENGTH_pos as [width Hwidth].
  revert fid. induction fuel as [|fuel IH]; intros fid; simpl; [lia|].
  rewrite Hwidth.
  destruct (fscanf_s (S width) fid) as [[str fid']|] eqn:Hscan; simpl; [|lia].
  apply fscanf_s_consumes in Hscan as (Hlt & _).
  specialize (IH fid'). lia.
Qed.

(** No more tokens than bytes. *)
Lemma tokens_length (fid : list char) :
  (length (tokens fid) <= length fid)%nat.
Proof. apply tokens_fuel_length. Qed.

(** Every buffer the loop hands to [hashinsert] holds between 1 and
    [MAX_STRING_LENGTH] bytes. *)
Lemma tokens_bounded (fid : list char) :
  Forall (fun str => (1 <= length str <= Z.to_nat MAX_STRING_LENGTH)%nat)
    (tokens fid).
Proof.
  destruct MAX_STRING_LENGTH_pos as [width Hwidth].
  unfold tokens. generalize (length fid) as fuel. intros fuel. revert fid.
  induction fuel as [|fuel IH]; intros fid; simpl; [constructor|].
  rewrite Hwidth.
  destruct (fscanf_s (S width) fid) as [[str fid']|] eqn:Hscan;
    [|constructor].
  apply fscanf_s_consumes in Hscan as (_ & Hne & Hle).
  rewrite <- Hwidth in Hle |- *.
  constructor; [|apply IH].
  destruct str; [done|]. simpl in *. lia.
Qed.

(** The token loop of [get_counts]: its table is [hashinsert] folded over
    the tokens, whatever the verbosity. *)
Lemma count_loop_table (fuel : nat) (g : globals) (fid : list char)
    (ht : list (list HASHREC)) (i : Z) (log : list logmsg) :
  (count_loop fuel g fid ht i log).1.1
  = foldl hashinsert ht (tokens_fuel fuel fid).
Proof.
  revert fid ht i log. induction fuel as [|fuel IH]; intros; simpl; [done|].
  destruct (fscanf_s (Z.to_nat MAX_STRING_LENGTH) fid) as [[str fid']|];
    [|done].
  simpl. apply IH.
Qed.

(** Its index [i] is the number of tokens read, while that fits a
    [long long]. *)
Lemma count_loop_index (fuel : nat) (g : globals) (fid : list char)
    (ht : list (list HASHREC)) (i : Z) (log : list logmsg) :
  0 <= i -> i + Z.of_nat (length (tokens_fuel fuel fid)) <= LLONG_MAX ->
  (count_loop fuel g fid ht i log).1.2
  = i + Z.of_nat (length (tokens_fuel fuel fid)).
Proof.
  revert fid ht i log. induction fuel as [|fuel IH]; intros fid ht i log Hi;
    simpl; [lia|].
  destruct (fscanf_s (Z.to_nat MAX_STRING_LENGTH) fid) as [[str fid']|];
    simpl; [|lia].
  intros Hmax. unfold LLONG_MAX in *.
  rewrite (wrap64_small (i + 1)) by lia.
  rewrite IH; unfold LLONG_MAX; lia.
Qed.

(** The token loop on a corpus: the table is [hashinsert] folded over its
    tokens and [i] is their number. *)
Lemma count_loop_counts (g : globals) (fid : list char) (log : list logmsg) :
  Z.of_nat (length fid) <= LLONG_MAX ->
  (count_loop (length fid) g fid inithashtable 0 log).1
  = (count_tokens (tokens fid), Z.of_nat (length (tokens fid))).
Proof.
  intros Hlen.
  pose proof (count_loop_table (length fid) g fid inithashtable 0 log) as Ht.
  pose proof (count_loop_index (length fid) g fid inithashtable 0 log) as Hi.
  pose proof (tokens_length fid) as Hn. unfold tokens in Hn.
  destruct (count_loop _ _ _ _ _ _) as [[ht i] log']. simpl in *.
  rewrite Ht, Hi by lia. done.
Qed.

(** ** The array that is ranked *)

Lemma vocab_ok_perm (l1 l2 : list VOCAB) :
  l1 ≡ₚ l2 -> vocab_ok l1 -> vocab_ok l2.
Proof.
  intros Hp (Hnd & Hr & Hc). repeat split; by rewrite <- Hp.
Qed.

Lemma vocab_ok_take (n : nat) (l : list VOCAB) :
  vocab_ok l -> vocab_ok (take n l).
Proof.
  intros (Hnd & Hr & Hc). repeat split; try by apply Forall_take.
  rewrite fmap_take. eapply sublist_NoDup; [done|apply sublist_take].
Qed.

Lemma migrate_word (ht : list (list HASHREC)) :
  word <$> migrate ht = hword <$> entries ht.
Proof. unfold migrate. rewrite <- list_fmap_compose. done. Qed.

Lemma corpus_vocab_ok (fid : list char) :
  Z.of_nat (length fid) <= LLONG_MAX -> vocab_ok (corpus_vocab fid).
Proof.
  intros Hlen. unfold corpus_vocab.
  pose proof (count_tokens_ok (tokens fid)) as Hok.
  pose proof (tokens_length fid) as Htok.
  destruct (count_tokens_counts_ok (tokens fid)) as [Hpos Hsum]; [lia|].
  repeat split.
  - rewrite migrate_word. by apply table_ok_NoDup.
  - unfold migrate. apply Forall_fmap, Forall_forall. intros r Hr.
    unfold count_in_range. simpl. split.
    + rewrite Forall_forall in Hpos. by apply Hpos.
    + pose proof (sum_counts_bound _ r Hpos Hr). lia.
  - unfold migrate. apply Forall_fmap, Forall_forall. intros r Hr. simpl.
    by destruct (table_ok_elem _ r Hok Hr).
Qed.


(** The emission loop prints a prefix of what it ranges over. *)
Lemma emit_prefix (m : Z) (l : list VOCAB) :
  exists rest,
    l = emit m l ++ rest /\
    Forall (fun v => m <= count v) (emit m l) /\
    match rest with
    | [] => emit_breaks m l = false
    | v :: _ => count v < m /\ emit_breaks m l = true
    end.
Proof.
  induction l as [|v l (rest & Hl & Hall & Hrest)]; simpl.
  - by exists [].
  - destruct (Z.ltb_spec (count v) m).
    + exists (v :: l). by repeat split.
    + exists rest. repeat split; [simpl; by f_equal|by constructor|done].
Qed.

Lemma emit_all (m : Z) (l : list VOCAB) :
  Forall (fun v => m <= count v) l -> emit m l = l.
Proof.
  induction 1 as [|v l Hv _ IH]; simpl; [done|].
  destruct (Z.ltb_spec (count v) m); [lia|]. by rewrite IH.
Qed.

Lemma emit_length (m : Z) (l : list VOCAB) :
  (length (emit m l) <= length l)%nat.
Proof.
  induction l as [|v l IH]; simpl; [done|].
  destruct (count v <? m); simpl; lia.
Qed.


Section Ranking.

Variable qsort : (VOCAB -> VOCAB -> Z) -> list VOCAB -> list VOCAB.

(** The state before emission, in terms of the tokens of the corpus. *)
Lemma get_counts_rank_eq (g : globals) (fid : list char) :
  let v := corpus_vocab fid in
  let j := Z.of_nat (length v) in
  let k := get_counts_rank qsort g fid in
  j_final k = j /\
  max_vocab_final k = cutoff g j /\
  vocab k =
    qsort_array qsort
      (if size_limited g j
       then qsort_array qsort v (Z.to_nat j) Compare_Vocab else v)
      (Z.to_nat (cutoff g j)) Compare_VocabTie /\
  qsort_calls k =
    (if size_limited g j then [(Z.to_nat j, Compare_Vocab)] else [])
    ++ [(Z.to_nat (cutoff g j), Compare_VocabTie)].
Proof.
  unfold get_counts_rank, corpus_vocab, count_tokens, tokens, cutoff,
    size_limited.
  pose proof (count_loop_table (length fid) g fid inithashtable 0
    (log_if g 1 (Processed_tokens_head 0) [BUILDING_VOCABULARY])) as Htab.
  destruct (count_loop _ _ _ _ _ _) as [[ht i] log].
  simpl in Htab. subst ht. simpl. done.
Qed.

Lemma cutoff_range (g : globals) (j : Z) :
  0 <= j -> 0 <= cutoff g j <= j.
Proof.
  unfold cutoff, size_limited. intros Hj.
  destruct (Z.gtb_spec (max_vocab g) 0), (Z.ltb_spec (max_vocab g) j);
    simpl; lia.
Qed.

Hypothesis qsort_ok : qsort_contract qsort.

Lemma qsort_perm (c : comparator) (l : list VOCAB) :
  vocab_ok l -> qsort (compar c) l ≡ₚ l.
Proof.
  intros (_ & Hr & _). by apply qsort_ok, compar_consistent.
Qed.

Lemma qsort_sorted (c : comparator) (l : list VOCAB) :
  vocab_ok l -> sorted_by (compar c) (qsort (compar c) l).
Proof.
  intros (_ & Hr & _). by apply qsort_ok, compar_consistent.
Qed.

Lemma qsort_array_all (c : comparator) (l : list VOCAB) :
  vocab_ok l -> qsort_array qsort l (length l) c ≡ₚ l.
Proof.
  intros Hl. unfold qsort_array.
  rewrite take_ge, drop_all, app_nil_r by done. by apply qsort_perm.
Qed.

Lemma presorted_perm (g : globals) (fid : list char) :
  Z.of_nat (length fid) <= LLONG_MAX ->
  presorted qsort g fid ≡ₚ corpus_vocab fid.
Proof.
  intros Hlen. unfold presorted.
  destruct (size_limited g _); [|done].
  rewrite Nat2Z.id. by apply qsort_array_all, corpus_vocab_ok.
Qed.

(** The entries the emission loop ranges over are the first
    [max_vocab] entries of the array after the first step, sorted with
    the tie-breaking comparator. *)
Lemma ranked_prefix_eq (g : globals) (fid : list char) :
  Z.of_nat (length fid) <= LLONG_MAX ->
  let m := Z.to_nat (cutoff g (Z.of_nat (length (corpus_vocab fid)))) in
  ranked_prefix (get_counts_rank qsort g fid)
  = qsort CompareVocabTie (take m (presorted qsort g fid)) /\
  length (ranked_prefix (get_counts_rank qsort g fid)) = m.
Proof.
  intros Hlen m.
  destruct (get_counts_rank_eq g fid) as (_ & HM & Hv & _).
  unfold ranked_prefix. rewrite HM, Hv. fold (presorted qsort g fid). fold m.
  unfold qsort_array.
  pose proof (presorted_perm g fid Hlen) as Hperm.
  assert (Hok : vocab_ok (take m (presorted qsort g fid))).
  { apply vocab_ok_take. eapply vocab_ok_perm; [symmetry; apply Hperm|].
    by apply corpus_vocab_ok. }
  pose proof (qsort_perm Compare_VocabTie _ Hok) as Hp. simpl in Hp.
  assert (Hm : length (qsort CompareVocabTie (take m (presorted qsort g fid))) = m).
  { rewrite Hp, length_take_le; [done|].
    rewrite Hperm. unfold m.
    pose proof (cutoff_range g (Z.of_nat (length (corpus_vocab fid)))). lia. }
  rewrite take_app_length' by done. done.
Qed.

Lemma ranked_prefix_ok (g : globals) (fid : list char) :
  Z.of_nat (length fid) <= LLONG_MAX ->
  vocab_ok (ranked_prefix (get_counts_rank qsort g fid)) /\
  sorted_by CompareVocabTie (ranked_prefix (get_counts_rank qsort g fid)) /\
  ranked_prefix (get_counts_rank qsort g fid) ⊆+ corpus_vocab fid.
Proof.
  intros Hlen. destruct (ranked_prefix_eq g fid Hlen) as [-> _].
  pose proof (presorted_perm g fid Hlen) as Hperm.
  set (m := Z.to_nat _).
  assert (Hok : vocab_ok (take m (presorted qsort g fid))).
  { apply vocab_ok_take. eapply vocab_ok_perm; [symmetry; apply Hperm|].
    by apply corpus_vocab_ok. }
  pose proof (qsort_perm Compare_VocabTie _ Hok) as Hp. simpl in Hp.
  split; [|split].
  - eapply vocab_ok_perm; [symmetry; apply Hp|done].
  - apply (qsort_sorted Compare_VocabTie _ Hok).
  - rewrite Hp, <- Hperm. apply submseteq_take.
Qed.

End Ranking.

(** ** The table against a plain associative map *)

Lemma table_pairs_fst (ht : list (list HASHREC)) :
  (table_pairs ht).*1 = hword <$> entries ht.
Proof. unfold table_pairs. by rewrite <- list_fmap_compose. Qed.

Lemma table_pairs_NoDup (ht : list (list HASHREC)) :
  table_ok ht -> NoDup (table_pairs ht).*1.
Proof. rewrite table_pairs_fst. apply table_ok_NoDup. Qed.

(** One [hashinsert] on the table is one [observe] on the map it stands
    for. *)
Lemma table_map_hashinsert (ht : list (list HASHREC)) (w : list char) :
  table_ok ht ->
  (list_to_map (table_pairs (hashinsert ht w)) : gmap (list Z) Z)
  = plain_observe (list_to_map (table_pairs ht)) w.
Proof.
  intros Hok.
  pose proof (table_pairs_NoDup _ (hashinsert_ok ht w Hok)) as Hnd'.
  pose proof (table_pairs_NoDup _ Hok) as Hnd.
  unfold plain_observe.
  destruct (hashinsert_entries ht w Hok)
    as [[Hnew Hperm]|(r & others & Hr & Hperm & Hperm')].
  - rewrite <- table_pairs_fst in Hnew.
    rewrite (not_elem_of_list_to_map_1 _ _ Hnew).
    rewrite (list_to_map_proper _ ((cstr w, 1) :: table_pairs ht) Hnd').
    + done.
    + unfold table_pairs. rewrite Hperm, fmap_app. simpl.
      by rewrite <- Permutation_cons_append.
  - set (rest := (fun r => (hword r, hcount r)) <$> others).
    assert (H1 : table_pairs ht ≡ₚ (cstr w, hcount r) :: rest).
    { unfold table_pairs. rewrite Hperm. simpl. by rewrite Hr. }
    assert (H2 : table_pairs (hashinsert ht w)
                 ≡ₚ (cstr w, wrap64 (hcount r + 1)) :: rest).
    { unfold table_pairs. rewrite Hperm'. simpl. by rewrite Hr. }
    rewrite (list_to_map_proper _ _ Hnd' H2).
    rewrite (list_to_map_proper _ _ Hnd H1).
    rewrite !list_to_map_cons, lookup_insert_eq.
    by rewrite insert_insert_eq.
Qed.

Lemma table_map_foldl (toks : list (list char)) (ht : list (list HASHREC)) :
  table_ok ht ->
  (list_to_map (table_pairs (foldl hashinsert ht toks)) : gmap (list Z) Z)
  = foldl plain_observe (list_to_map (table_pairs ht)) toks.
Proof.
  revert ht. induction toks as [|w toks IH]; intros ht Hok; simpl; [done|].
  rewrite IH by by apply hashinsert_ok.
  by rewrite table_map_hashinsert.
Qed.

Lemma table_map_count_tokens (toks : list (list char)) :
  (list_to_map (table_pairs (count_tokens toks)) : gmap (list Z) Z)
  = plain_count toks.
Proof.
  unfold count_tokens, plain_count.
  rewrite table_map_foldl by apply inithashtable_ok.
  unfold table_pairs. by rewrite entries_inithashtable.
Qed.

(** ** The output of [get_counts] *)

Lemma log_if_keeps (g : globals) (level : Z) (m m0 : logmsg)
    (log : list logmsg) :
  m0 ∈ log -> m0 ∈ log_if g level m log.
Proof. unfold log_if. destruct (verbose g >? level); set_solver. Qed.

Lemma count_loop_keeps (m0 : logmsg) (fuel : nat) (g : globals)
    (fid : list char) (ht : list (list HASHREC)) (i : Z) (log : list logmsg) :
  m0 ∈ log -> m0 ∈ (count_loop fuel g fid ht i log).2.
Proof.
  revert fid ht i log.
  induction fuel as [|fuel IH]; intros fid ht i log Hin; simpl; [done|].
  destruct (fscanf_s _ fid) as [[str fid']|]; [|done].
  apply IH. destruct (Z.rem _ _ =? 0); [|done]. by apply log_if_keeps.
Qed.

Lemma ranked_log_first (qsort : (VOCAB -> VOCAB -> Z) -> list VOCAB -> list VOCAB)
    (g : globals) (fid : list char) :
  BUILDING_VOCABULARY ∈ ranked_log (get_counts_rank qsort g fid).
Proof.
  unfold get_counts_rank.
  pose proof (count_loop_keeps BUILDING_VOCABULARY (length fid) g fid
    inithashtable 0
    (log_if g 1 (Processed_tokens_head 0) [BUILDING_VOCABULARY])) as Hkeep.
  destruct (count_loop _ _ _ _ _ _) as [[ht i] log]. simpl in *.
  do 2 apply log_if_keeps. apply Hkeep, log_if_keeps. by left.
Qed.

(** ** What the table counts *)

Lemma occurrences_snoc (k : list Z) (toks : list (list char)) (w : list char) :
  occurrences k (toks ++ [w])
  = occurrences k toks + (if decide (cstr w = k) then 1 else 0).
Proof.
  unfold occurrences. rewrite filter_app, length_app, filter_cons.
  case_decide; simpl; lia.
Qed.

Lemma occurrences_bound (k : list Z) (toks : list (list char)) :
  0 <= occurrences k toks <= Z.of_nat (length toks).
Proof.
  unfold occurrences.
  pose proof (length_filter (fun w => cstr w = k) toks). lia.
Qed.

Lemma plain_count_lookup (toks : list (list char)) (k : list Z) :
  Z.of_nat (length toks) <= LLONG_MAX ->
  plain_count toks !! k
  = if decide (occurrences k toks = 0) then None
    else Some (occurrences k toks).
Proof.
  unfold plain_count.
  induction toks as [|w toks IH] using rev_ind; intros Hlen.
  - simpl. by rewrite lookup_empty.
  - rewrite length_app in Hlen. simpl in Hlen.
    rewrite foldl_snoc, occurrences_snoc.
    pose proof (occurrences_bound k toks) as Hocc.
    pose proof (occurrences_bound (cstr w) toks) as Hoccw.
    unfold plain_observe at 1.
    assert (Hw := IH). specialize (Hw ltac:(lia)).
    destruct (decide (cstr w = k)) as [->|Hne].
    + rewrite Hw.
      destruct (decide (occurrences k toks = 0)) as [H0|H0].
      * rewrite lookup_insert_eq, H0. by rewrite decide_False by lia.
      * rewrite lookup_insert_eq, decide_False by lia.
        f_equal. apply wrap64_small. unfold LLONG_MAX in Hlen. lia.
    + rewrite Z.add_0_r.
      destruct (foldl plain_observe ∅ toks !! cstr w);
        by rewrite lookup_insert_ne.
Qed.

(** The table holds, for every string that occurs among the tokens, one
    record with the number of its occurrences, and nothing else. *)
Lemma count_tokens_entry (toks : list (list char)) (k : list Z) (c : Z) :
  Z.of_nat (length toks) <= LLONG_MAX ->
  mkHASHREC k c ∈ entries (count_tokens toks)
  <-> c = occurrences k toks /\ 0 < c.
Proof.
  intros Hlen.
  assert (Hpair : mkHASHREC k c ∈ entries (count_tokens toks)
                  <-> (k, c) ∈ table_pairs (count_tokens toks)).
  { unfold table_pairs. rewrite list_elem_of_fmap. split.
    - intros Hin. by exists (mkHASHREC k c).
    - intros ([k' c'] & [= -> ->] & Hin). done. }
  rewrite Hpair.
  rewrite elem_of_list_to_map by apply table_pairs_NoDup, count_tokens_ok.
  rewrite table_map_count_tokens, plain_count_lookup by done.
  pose proof (occurrences_bound k toks).
  case_decide; split; try done; try lia.
  - intros [= <-]. lia.
  - intros [-> _]. done.
Qed.

(** The words of the table are the distinct strings among the tokens, so
    the number of entries migrated is the number of distinct tokens. *)
Lemma table_words_distinct_tokens (toks : list (list char)) :
  Z.of_nat (length toks) <= LLONG_MAX ->
  hword <$> entries (count_tokens toks) ≡ₚ remove_dups (cstr <$> toks).
Proof.
  intros Hlen. apply NoDup_Permutation.
  - apply table_ok_NoDup, count_tokens_ok.
  - apply NoDup_remove_dups.
  - intros k. rewrite elem_of_remove_dups, !list_elem_of_fmap. split.
    + intros ([k' c] & -> & Hr). simpl.
      apply count_tokens_entry in Hr as [-> Hpos]; [|done].
      unfold occurrences in Hpos.
      destruct (filter (fun w => cstr w = k') toks) as [|w ?] eqn:Hf;
        [simpl in Hpos; lia|].
      assert (Hw : w ∈ filter (fun w => cstr w = k') toks).
      { rewrite Hf. by left. }
      apply list_elem_of_filter in Hw as [<- Hw]. by exists w.
    + intros (w & -> & Hw).
      exists (mkHASHREC (cstr w) (occurrences (cstr w) toks)).
      split; [done|]. apply count_tokens_entry; [done|]. split; [done|].
      unfold occurrences.
      assert (Hin : w ∈ filter (fun w' => cstr w' = cstr w) toks).
      { by apply list_elem_of_filter. }
      destruct (filter _ toks); [by apply elem_of_nil in Hin|]. simpl. lia.
Qed.

(** ** Where the bytes of the words come from *)

Lemma cstr_bytes (s : list char) (c : char) : c ∈ cstr s -> c ∈ s.
Proof.
  induction s as [|d s IH]; simpl; [done|].
  destruct (d =? 0); [by intros ?%elem_of_nil|].
  rewrite !elem_of_cons. intros [->|?]; [by left|right; by apply IH].
Qed.

Lemma skip_space_bytes (s : list char) (c : char) :
  c ∈ skip_space s -> c ∈ s.
Proof.
  induction s as [|d s IH]; simpl; [done|].
  destruct (isspace d); [|done]. intros ?. right. by apply IH.
Qed.

Lemma fscanf_s_bytes (n : nat) (fid str rest : list char) (c : char) :
  fscanf_s n fid = Some (str, rest) -> c ∈ str \/ c ∈ rest -> c ∈ fid.
Proof.
  unfold fscanf_s. intros Hscan Hc. apply skip_space_bytes.
  destruct (skip_space fid) as [|d s]; [done|].
  injection Hscan as Hscan.
  pose proof (scan_word_spec n (d :: s)) as (Hsplit & _).
  rewrite Hscan in Hsplit. simpl in Hsplit. rewrite Hsplit.
  by apply elem_of_app.
Qed.

Lemma tokens_fuel_bytes (fuel : nat) (fid w : list char) (c : char) :
  w ∈ tokens_fuel fuel fid -> c ∈ w -> c ∈ fid.
Proof.
  revert fid. induction fuel as [|fuel IH]; intros fid Hw Hc; simpl in Hw.
  - by apply elem_of_nil in Hw.
  - destruct (fscanf_s _ fid) as [[str fid']|] eqn:Hscan;
      [|by apply elem_of_nil in Hw].
    apply elem_of_cons in Hw as [->|Hw].
    + apply (fscanf_s_bytes _ _ _ _ _ Hscan). by left.
    + apply (fscanf_s_bytes _ _ _ _ _ Hscan). right. by apply IH.
Qed.

(** Every byte of a word of the array is a byte of the corpus. *)
Lemma corpus_vocab_bytes (fid : list char) (v : VOCAB) (c : char) :
  Z.of_nat (length fid) <= LLONG_MAX ->
  v ∈ corpus_vocab fid -> c ∈ word v -> c ∈ fid.
Proof.
  intros Hlen Hv Hc. unfold corpus_vocab, migrate in Hv.
  apply list_elem_of_fmap in Hv as ([k n] & -> & Hr). simpl in Hc.
  pose proof (tokens_length fid) as Htok.
  apply count_tokens_entry in Hr as [-> Hpos]; [|lia].
  unfold occurrences in Hpos.
  destruct (filter (fun w => cstr w = k) (tokens fid)) as [|w ?] eqn:Hf;
    [simpl in Hpos; lia|].
  assert (Hw : w ∈ filter (fun w => cstr w = k) (tokens fid)).
  { rewrite Hf. by left. }
  apply list_elem_of_filter in Hw as [<- Hw].
  eapply tokens_fuel_bytes; [apply Hw|]. by apply cstr_bytes.
Qed.

(** ** Runs longer than the field width *)

Lemma scan_word_run (n : nat) (run rest : list char) :
  Forall (fun c => isspace c = false) run -> run_end rest ->
  scan_word n (run ++ rest) = (take n run, drop n run ++ rest).
Proof.
  intros Hrun Hrest. revert run Hrun.
  induction n as [|n IH]; intros run Hrun.
  - by destruct run.
  - destruct Hrun as [|c run Hc Hrun]; simpl.
    + destruct rest as [|d rest]; [done|]. simpl in Hrest. by rewrite Hrest.
    + rewrite Hc, (IH run Hrun). done.
Qed.

Lemma fscanf_s_run (n : nat) (run rest : list char) :
  Forall (fun c => isspace c = false) run -> run <> [] -> run_end rest ->
  fscanf_s n (run ++ rest) = Some (take n run, drop n run ++ rest).
Proof.
  intros Hrun Hne Hrest. unfold fscanf_s.
  destruct Hrun as [|c run Hc Hrun]; [done|].
  change (skip_space ((c :: run) ++ rest))
    with (if isspace c then skip_space (run ++ rest) else c :: run ++ rest).
  rewrite Hc.
  change (c :: run ++ rest) with ((c :: run) ++ rest).
  f_equal. apply scan_word_run; [by constructor|done].
Qed.

Lemma tokens_skip_space (c : char) (fid : list char) :
  isspace c = true -> tokens (c :: fid) = tokens fid.
Proof.
  intros Hc. rewrite (tokens_unfold (c :: fid)), (tokens_unfold fid).
  unfold fscanf_s. simpl. by rewrite Hc.
Qed.

(** ** Further lemmas on the comparators, the table, the token source
    and the ranking *)

Lemma scmp_common_prefix (p s1 s2 : list char) :
  Forall (fun c => c <> 0) p -> scmp (p ++ s1) (p ++ s2) = scmp s1 s2.
Proof.
  induction 1 as [|c p Hc _ IH]; simpl; [done|].
  destruct (Z.eqb_spec c 0); [done|]. by rewrite Z.eqb_refl.
Qed.

Lemma lxor_below_pow2 (n a b : Z) :
  0 <= n -> 0 <= a < 2 ^ n -> 0 <= b < 2 ^ n -> 0 <= Z.lxor a b < 2 ^ n.
Proof.
  intros Hn Ha Hb. split; [apply Z.lxor_nonneg; lia|].
  destruct (Z.eq_dec (Z.lxor a b) 0) as [->|Hne]; [lia|].
  assert (0 < Z.lxor a b).
  { pose proof (proj2 (Z.lxor_nonneg a b)). lia. }
  apply Z.log2_lt_pow2; [done|].
  pose proof (Z.log2_lxor a b ltac:(lia) ltac:(lia)) as Hlog.
  assert (0 < n).
  { destruct (Z.eq_dec n 0) as [->|]; [|lia].
    assert (a = 0) as -> by lia. assert (b = 0) as -> by lia. done. }
  assert (Z.log2 a < n).
  { destruct (Z.eq_dec a 0) as [->|]; [simpl; lia|].
    apply Z.log2_lt_pow2; lia. }
  assert (Z.log2 b < n).
  { destruct (Z.eq_dec b 0) as [->|]; [simpl; lia|].
    apply Z.log2_lt_pow2; lia. }
  lia.
Qed.

Lemma bitwisehash_loop_range (w : list char) (h : Z) :
  0 <= h < 2 ^ 32 -> 0 <= bitwisehash_loop w h < 2 ^ 32.
Proof.
  revert h. induction w as [|c w IH]; intros h Hh; simpl; [done|].
  destruct (c =? 0); [done|]. apply IH.
  apply lxor_below_pow2; [lia|done|].
  unfold wrap32u. apply Z.mod_pos_bound. lia.
Qed.

Lemma scmp_cstr_r (s1 s2 : list char) : scmp s1 (cstr s2) = scmp s1 s2.
Proof. by rewrite <- (scmp_cstr s1 (cstr s2)), cstr_idemp, scmp_cstr. Qed.

Lemma chain_scan_cstr (w : list char) (chain : list HASHREC) :
  chain_scan (cstr w) chain = chain_scan w chain.
Proof.
  induction chain as [|r next IH]; simpl; [done|].
  by rewrite scmp_cstr_r, IH.
Qed.

Lemma hashinsert_chain_cstr (w : list char) (chain : list HASHREC) :
  hashinsert_chain (cstr w) chain = hashinsert_chain w chain.
Proof.
  unfold hashinsert_chain, strcpy. by rewrite chain_scan_cstr, cstr_idemp.
Qed.

Lemma chain_scan_passed (w : list char) (passed rest : list HASHREC) :
  Forall (differs_from w) passed ->
  chain_scan w (passed ++ rest)
  = (passed ++ (chain_scan w rest).1, (chain_scan w rest).2).
Proof.
  induction 1 as [|r passed Hr _ IH]; simpl.
  - by destruct (chain_scan w rest).
  - unfold differs_from in Hr.
    destruct (Z.eqb_spec (scmp (hword r) w) 0); [done|]. simpl.
    by rewrite IH.
Qed.

Lemma hashinsert_chain_others (w : list char) (chain : list HASHREC) :
  filter (differs_from w) (hashinsert_chain w chain)
  = filter (differs_from w) chain.
Proof.
  assert (Hsame : forall c, ~ differs_from w (mkHASHREC (cstr w) c)).
  { intros c Hd. apply Hd. simpl. apply scmp_eq_0, cstr_idemp. }
  destruct (hashinsert_chain_cases w chain)
    as [[_ ->]|(passed & htmp & next & -> & _ & Hhit & ->)].
  - rewrite filter_app, filter_cons, decide_False by apply Hsame.
    apply app_nil_r.
  - rewrite filter_cons, decide_False; [|unfold differs_from; simpl; lia].
    rewrite !filter_app, filter_cons, decide_False; [done|].
    unfold differs_from. lia.
Qed.

Lemma alter_out_of_range {A} (f : A -> A) (l : list A) (i : nat) :
  l !! i = None -> alter f i l = l.
Proof.
  revert i. induction l as [|x l IH]; intros [|i] Hi; simplify_eq/=;
    [done..|]. f_equal. by apply IH.
Qed.

Lemma migrate_elem (ht : list (list HASHREC)) (v : VOCAB) :
  v ∈ migrate ht <-> mkHASHREC (word v) (count v) ∈ entries ht.
Proof.
  unfold migrate. rewrite list_elem_of_fmap. split.
  - intros ([k c] & -> & Hr). done.
  - intros Hr. exists (mkHASHREC (word v) (count v)). by destruct v.
Qed.

Lemma table_pairs_elem (ht : list (list HASHREC)) (k : list Z) (c : Z) :
  (k, c) ∈ table_pairs ht <-> mkHASHREC k c ∈ entries ht.
Proof.
  unfold table_pairs. rewrite list_elem_of_fmap. split.
  - intros ([k' c'] & [= -> ->] & Hr). done.
  - intros Hr. by exists (mkHASHREC k c).
Qed.

Lemma occurrences_perm (k : list Z) (toks1 toks2 : list (list char)) :
  toks1 ≡ₚ toks2 -> occurrences k toks1 = occurrences k toks2.
Proof. intros Hp. unfold occurrences. by rewrite Hp. Qed.

Lemma filter_skip_space (s : list char) :
  filter (fun c => isspace c = false) (skip_space s)
  = filter (fun c => isspace c = false) s.
Proof.
  induction s as [|c s IH]; simpl; [done|].
  destruct (isspace c) eqn:Hc; [|done].
  by rewrite filter_cons, decide_False by congruence.
Qed.

Lemma filter_all {A} (P : A -> Prop) `{!forall x, Decision (P x)}
    (l : list A) :
  Forall P l -> filter P l = l.
Proof.
  induction 1 as [|x l Hx _ IH]; [done|].
  by rewrite filter_cons, decide_True, IH.
Qed.

Lemma fscanf_s_filter (n : nat) (fid : list char) :
  filter (fun c => isspace c = false) fid
  = match fscanf_s n fid with
    | None => []
    | Some (str, rest) => str ++ filter (fun c => isspace c = false) rest
    end.
Proof.
  rewrite <- filter_skip_space. unfold fscanf_s.
  destruct (skip_space fid) as [|c s]; [done|].
  pose proof (scan_word_spec n (c :: s)) as (Hsplit & _ & Hns).
  destruct (scan_word n (c :: s)) as [str rest]. simpl in *.
  rewrite Hsplit at 1. by rewrite filter_app, (filter_all _ str Hns).
Qed.

Lemma tokens_fuel_join (fuel : nat) (fid : list char) :
  (length fid <= fuel)%nat ->
  mjoin (tokens_fuel fuel fid) = filter (fun c => isspace c = false) fid.
Proof.
  destruct MAX_STRING_LENGTH_pos as [n Hn].
  revert fid. induction fuel as [|fuel IH]; intros fid Hlen.
  - destruct fid; [done|simpl in Hlen; lia].
  - simpl. rewrite (fscanf_s_filter (Z.to_nat MAX_STRING_LENGTH) fid).
    rewrite Hn.
    destruct (fscanf_s (S n) fid) as [[str fid']|] eqn:Hscan; [|done].
    apply fscanf_s_consumes in Hscan as (Hlt & _).
    simpl. f_equal. apply IH. lia.
Qed.

Lemma tokens_fuel_non_space (fuel : nat) (fid : list char) :
  Forall (Forall (fun c => isspace c = false)) (tokens_fuel fuel fid).
Proof.
  revert fid. induction fuel as [|fuel IH]; intros fid; simpl;
    [constructor|].
  unfold fscanf_s.
  destruct (skip_space fid) as [|c s]; [constructor|].
  pose proof (scan_word_spec (Z.to_nat MAX_STRING_LENGTH) (c :: s))
    as (_ & _ & Hns).
  destruct (scan_word _ (c :: s)) as [str rest]. by constructor.
Qed.

Lemma tokens_short_run (run rest : list char) :
  Forall (fun c => isspace c = false) run -> run <> [] ->
  (length run <= field_width)%nat -> run_end rest ->
  tokens (run ++ rest) = run :: tokens rest.
Proof.
  intros Hrun Hne Hlen Hrest. rewrite tokens_unfold. fold field_width.
  rewrite (fscanf_s_run field_width run rest Hrun Hne Hrest).
  by rewrite take_ge, drop_ge by done.
Qed.

Global Instance ranks_before_transitive : Transitive ranks_before.
Proof.
  intros a b c [H1|[H1 L1]] [H2|[H2 L2]]; unfold ranks_before;
    try (left; lia).
  right. split; [lia|]. by apply (lex_lt_trans _ (word b)).
Qed.

Global Instance count_descends_transitive : Transitive count_descends.
Proof. unfold count_descends. intros a b c ? ?. lia. Qed.

Lemma ranks_before_asym (a b : VOCAB) :
  ranks_before a b -> ranks_before b a -> False.
Proof.
  intros [H1|[H1 L1]] [H2|[H2 L2]]; try lia.
  apply (lex_lt_irrefl (word a)). by apply (lex_lt_trans _ (word b)).
Qed.

Lemma Sorted_impl_elem (R R' : VOCAB -> VOCAB -> Prop) (l : list VOCAB) :
  (forall a b, a ∈ l -> b ∈ l -> R a b -> R' a b) ->
  Sorted R l -> Sorted R' l.
Proof.
  intros Himpl Hs. induction Hs as [|a l Hs IH Hhd]; [constructor|].
  constructor.
  - apply IH. intros x y Hx Hy. apply Himpl; by right.
  - destruct Hhd as [|b l Hab]; constructor.
    apply Himpl; [by left|right; by left|done].
Qed.

Lemma StronglySorted_impl (R R' : VOCAB -> VOCAB -> Prop) (l : list VOCAB) :
  (forall a b, R a b -> R' a b) ->
  StronglySorted R l -> StronglySorted R' l.
Proof.
  intros Himpl. induction 1 as [|a l _ IH Hall]; constructor; [done|].
  eapply Forall_impl; [apply Hall|]. apply Himpl.
Qed.

(** An array of distinct words that is in the order of [CompareVocabTie] is
    strictly ranked. *)
Lemma tie_sorted_ranks (l : list VOCAB) :
  vocab_ok l -> sorted_by CompareVocabTie l -> StronglySorted ranks_before l.
Proof.
  intros (Hnd & Hr & Hc) Hs.
  apply (Sorted.Sorted_StronglySorted ranks_before_transitive).
  assert (Hdistinct : forall i j a b,
            l !! i = Some a -> l !! j = Some b -> word a = word b -> i = j).
  { intros i j a b Ha Hb Hw.
    apply (NoDup_lookup _ _ _ (word a) Hnd); rewrite list_lookup_fmap.
    - by rewrite Ha.
    - by rewrite Hb, Hw. }
  rewrite Forall_forall in Hr, Hc.
  clear Hnd. unfold sorted_by in Hs.
  induction Hs as [|a l Hs IH Hhd]; [constructor|].
  constructor.
  - apply IH.
    + intros x Hx. apply Hr. by right.
    + intros x Hx. apply Hc. by right.
    + intros i j x y Hx Hy Hw.
      assert (S i = S j); [|lia]. by apply (Hdistinct _ _ x y).
  - destruct Hhd as [|b l Hab]; constructor.
    assert (Ha : a ∈ a :: b :: l) by by left.
    assert (Hb : b ∈ a :: b :: l) by (right; by left).
    apply CompareVocabTie_le in Hab; [|by apply Hr..].
    destruct Hab as [Hlt|[Heq Hle]]; [left; lia|].
    right. split; [done|].
    apply scmp_le_0 in Hle. rewrite (Hc a Ha), (Hc b Hb) in Hle.
    destruct Hle as [Hlt|Hsame]; [done|].
    by specialize (Hdistinct 0%nat 1%nat a b eq_refl eq_refl Hsame).
Qed.

Lemma ranked_prefix_strongly
    (qsort : (VOCAB -> VOCAB -> Z) -> list VOCAB -> list VOCAB)
    (g : globals) (fid : list char) :
  qsort_contract qsort -> Z.of_nat (length fid) <= LLONG_MAX ->
  StronglySorted ranks_before (ranked_prefix (get_counts_rank qsort g fid)).
Proof.
  intros Hq Hlen.
  destruct (ranked_prefix_ok qsort Hq g fid Hlen) as (Hok & Hs & _).
  by apply tie_sorted_ranks.
Qed.

Lemma ranks_count_descends (a b : VOCAB) :
  ranks_before a b -> count_descends a b.
Proof. unfold count_descends. intros [?|[? _]]; lia. Qed.

Lemma filter_none {A} (P : A -> Prop) `{!forall x, Decision (P x)}
    (l : list A) :
  Forall (fun x => ~ P x) l -> filter P l = [].
Proof.
  induction 1 as [|x l Hx _ IH]; [done|].
  by rewrite filter_cons, decide_False, IH.
Qed.

(** On counts that descend, stopping at the first count below the minimum
    leaves out exactly the counts below the minimum. *)
Lemma emit_filter (m : Z) (l : list VOCAB) :
  StronglySorted count_descends l ->
  emit m l = filter (fun v => m <= count v) l.
Proof.
  induction 1 as [|v l _ IH Hall]; [done|].
  simpl. rewrite filter_cons.
  destruct (Z.ltb_spec (count v) m).
  - rewrite decide_False by lia. symmetry.
    apply filter_none. eapply Forall_impl; [apply Hall|].
    unfold count_descends. simpl. intros; lia.
  - by rewrite decide_True, IH by lia.
Qed.

Lemma fout_strongly
    (qsort : (VOCAB -> VOCAB -> Z) -> list VOCAB -> list VOCAB)
    (g : globals) (fid : list char) :
  qsort_contract qsort -> Z.of_nat (length fid) <= LLONG_MAX ->
  StronglySorted ranks_before (fout (get_counts_run qsort g fid)).
Proof.
  intros Hq Hlen.
  pose proof (ranked_prefix_strongly qsort g fid Hq Hlen) as Hs.
  change (fout (get_counts_run qsort g fid))
    with (emit (min_count g) (ranked_prefix (get_counts_rank qsort g fid))).
  destruct (emit_prefix (min_count g)
              (ranked_prefix (get_counts_rank qsort g fid)))
    as (rest & Hl & _).
  rewrite Hl in Hs. by apply StronglySorted_app_1_l in Hs.
Qed.

Lemma fout_sub_corpus_vocab
    (qsort : (VOCAB -> VOCAB -> Z) -> list VOCAB -> list VOCAB)
    (g : globals) (fid : list char) (v : VOCAB) :
  qsort_contract qsort -> Z.of_nat (length fid) <= LLONG_MAX ->
  v ∈ fout (get_counts_run qsort g fid) ->
  v ∈ corpus_vocab fid /\ min_count g <= count v.
Proof.
  intros Hq Hlen Hv.
  destruct (ranked_prefix_ok qsort Hq g fid Hlen) as (_ & _ & Hsub).
  change (fout (get_counts_run qsort g fid))
    with (emit (min_count g) (ranked_prefix (get_counts_rank qsort g fid)))
    in Hv.
  destruct (emit_prefix (min_count g)
              (ranked_prefix (get_counts_rank qsort g fid)))
    as (rest & Hl & Hall & _).
  rewrite Forall_forall in Hall. split; [|by apply Hall].
  assert (Hin : v ∈ ranked_prefix (get_counts_rank qsort g fid)).
  { rewrite Hl. apply elem_of_app. by left. }
  by apply (elem_of_submseteq _ _ _ Hin Hsub).
Qed.

Lemma corpus_vocab_token (fid : list char) (v : VOCAB) :
  Z.of_nat (length fid) <= LLONG_MAX ->
  v ∈ corpus_vocab fid -> exists w, w ∈ tokens fid /\ word v = cstr w.
Proof.
  intros Hlen Hv. unfold corpus_vocab in Hv. apply migrate_elem in Hv.
  pose proof (tokens_length fid).
  apply count_tokens_entry in Hv as [Hocc Hpos]; [|lia].
  rewrite Hocc in Hpos. unfold occurrences in Hpos.
  destruct (filter (fun w => cstr w = word v) (tokens fid)) as [|w ?] eqn:Hf;
    [simpl in Hpos; lia|].
  assert (Hw : w ∈ filter (fun w => cstr w = word v) (tokens fid)).
  { rewrite Hf. by left. }
  apply list_elem_of_filter in Hw as [Hw Hin]. by exists w.
Qed.

Lemma cstr_Forall (P : Z -> Prop) (s : list char) :
  Forall P s -> Forall P (cstr s).
Proof.
  rewrite !Forall_forall. intros Hs c Hc. by apply Hs, cstr_bytes.
Qed.

Lemma size_limited_false (g : globals) (n : Z) :
  ~ 0 < max_vocab g < n <-> size_limited g n = false.
Proof.
  unfold size_limited.
  destruct (Z.gtb_spec (max_vocab g) 0), (Z.ltb_spec (max_vocab g) n);
    simpl; split; (done || lia).
Qed.

Lemma ranked_prefix_perm
    (qsort : (VOCAB -> VOCAB -> Z) -> list VOCAB -> list VOCAB)
    (g : globals) (fid : list char) :
  qsort_contract qsort -> Z.of_nat (length fid) <= LLONG_MAX ->
  let m := Z.to_nat (cutoff g (Z.of_nat (length (corpus_vocab fid)))) in
  ranked_prefix (get_counts_rank qsort g fid)
  ≡ₚ take m (presorted qsort g fid).
Proof.
  intros Hq Hlen m.
  destruct (ranked_prefix_eq qsort Hq g fid Hlen) as [-> _]. fold m.
  apply (qsort_perm qsort Hq Compare_VocabTie).
  apply vocab_ok_take.
  eapply vocab_ok_perm; [symmetry; by apply presorted_perm|].
  by apply corpus_vocab_ok.
Qed.

Lemma ranked_prefix_unlimited
    (qsort : (VOCAB -> VOCAB -> Z) -> list VOCAB -> list VOCAB)
    (g : globals) (fid : list char) :
  qsort_contract qsort -> Z.of_nat (length fid) <= LLONG_MAX ->
  ~ 0 < max_vocab g < Z.of_nat (length (corpus_vocab fid)) ->
  ranked_prefix (get_counts_rank qsort g fid) ≡ₚ corpus_vocab fid.
Proof.
  intros Hq Hlen Hlim. apply size_limited_false in Hlim.
  rewrite (ranked_prefix_perm qsort g fid Hq Hlen).
  unfold presorted, cutoff. rewrite Hlim, Nat2Z.id.
  by rewrite take_ge.
Qed.

Lemma reversed_insertion_qsort_contract :
  qsort_contract reversed_insertion_qsort.
Proof.
  intros cmp l [Hsign Htrans]. unfold reversed_insertion_qsort.
  destruct (insertion_qsort_contract cmp (reverse l)) as [Hp Hs].
  - split.
    + intros a b Ha Hb. apply Hsign; by apply elem_of_reverse.
    + intros a b c Ha Hb Hc. apply Htrans; by apply elem_of_reverse.
  - split; [|done]. by rewrite Hp, reverse_Permutation.
Qed.

Lemma presorted_descends
    (qsort : (VOCAB -> VOCAB -> Z) -> list VOCAB -> list VOCAB)
    (g : globals) (fid : list char) :
  qsort_contract qsort -> Z.of_nat (length fid) <= LLONG_MAX ->
  0 < max_vocab g < Z.of_nat (length (corpus_vocab fid)) ->
  StronglySorted count_descends (presorted qsort g fid).
Proof.
  intros Hq Hlen Hlim.
  pose proof (corpus_vocab_ok fid Hlen) as Hok.
  pose proof (presorted_perm qsort Hq g fid Hlen) as Hperm.
  assert (Hr : Forall count_in_range (presorted qsort g fid)).
  { destruct Hok as (_ & Hr & _). by rewrite Hperm. }
  revert Hr. unfold presorted, size_limited.
  destruct (Z.gtb_spec (max_vocab g) 0); [|lia].
  destruct (Z.ltb_spec (max_vocab g) (Z.of_nat (length (corpus_vocab fid))));
    [|lia].
  simpl. unfold qsort_array.
  rewrite Nat2Z.id, take_ge, drop_all, app_nil_r by done.
  intros Hr. rewrite Forall_forall in Hr.
  apply (Sorted.Sorted_StronglySorted count_descends_transitive).
  apply (Sorted_impl_elem (fun a b => CompareVocab a b <= 0)).
  - intros a b Ha Hb Hab. unfold count_descends.
    by apply CompareVocab_le in Hab; [|apply Hr..].
  - apply (qsort_sorted qsort Hq Compare_Vocab _ Hok).
Qed.

Lemma emit_mono (m1 m2 : Z) (l : list VOCAB) :
  m1 <= m2 -> emit m2 l `prefix_of` emit m1 l.
Proof.
  intros Hm. induction l as [|v l IH]; simpl; [done|].
  destruct (Z.ltb_spec (count v) m2); [apply prefix_nil|].
  destruct (Z.ltb_spec (count v) m1); [lia|]. by apply prefix_cons.
Qed.

Lemma ranked_prefix_max_vocab
    (qsort : (VOCAB -> VOCAB -> Z) -> list VOCAB -> list VOCAB)
    (g1 g2 : globals) (fid : list char) :
  max_vocab g1 = max_vocab g2 ->
  ranked_prefix (get_counts_rank qsort g1 fid)
  = ranked_prefix (get_counts_rank qsort g2 fid).
Proof.
  intros Hmax. unfold ranked_prefix.
  destruct (get_counts_rank_eq qsort g1 fid) as (_ & -> & -> & _).
  destruct (get_counts_rank_eq qsort g2 fid) as (_ & -> & -> & _).
  unfold cutoff, size_limited. by rewrite Hmax.
Qed.

Lemma tokens_all_space (fid : list char) :
  Forall (fun c => isspace c = true) fid -> tokens fid = [].
Proof.
  intros Hfid. rewrite tokens_unfold. unfold fscanf_s.
  assert (Hskip : skip_space fid = []).
  { induction Hfid as [|c fid Hc _ IH]; simpl; [done|]. by rewrite Hc. }
  by rewrite Hskip.
Qed.

Lemma count_loop_quiet (fuel : nat) (g : globals) (fid : list char)
    (ht : list (list HASHREC)) (i : Z) (log : list logmsg) :
  verbose g <= 1 -> (count_loop fuel g fid ht i log).2 = log.
Proof.
  intros Hv. revert fid ht i log.
  induction fuel as [|fuel IH]; intros fid ht i log; simpl; [done|].
  destruct (fscanf_s _ fid) as [[str fid']|]; [|done].
  rewrite IH. unfold log_if.
  destruct (Z.gtb_spec (verbose g) 1); [lia|]. by destruct (_ =? 0).
Qed.

Lemma ranked_log_quiet
    (qsort : (VOCAB -> VOCAB -> Z) -> list VOCAB -> list VOCAB)
    (g : globals) (fid : list char) :
  verbose g <= 1 ->
  ranked_log (get_counts_rank qsort g fid) = [BUILDING_VOCABULARY].
Proof.
  intros Hv. unfold get_counts_rank.
  pose proof (count_loop_quiet (length fid) g fid inithashtable 0
    (log_if g 1 (Processed_tokens_head 0) [BUILDING_VOCABULARY]) Hv) as Hq.
  destruct (count_loop _ _ _ _ _ _) as [[ht i] log]. simpl in *.
  subst log. unfold log_if.
  by destruct (Z.gtb_spec (verbose g) 1); [lia|].
Qed.

Lemma logfile_keeps
    (qsort : (VOCAB -> VOCAB -> Z) -> list VOCAB -> list VOCAB)
    (g : globals) (fid : list char) (m : logmsg) :
  m ∈ ranked_log (get_counts_rank qsort g fid) ->
  m ∈ logfile (get_counts_run qsort g fid).
Proof.
  intros Hm. unfold get_counts_run. cbv zeta. cbn [logfile].
  apply elem_of_app. left.
  destruct (_ && _); [apply log_if_keeps|];
    destruct (emit_breaks _ _); try apply log_if_keeps; done.
Qed.

Lemma ranked_rest
    (qsort : (VOCAB -> VOCAB -> Z) -> list VOCAB -> list VOCAB)
    (g : globals) (fid : list char) :
  qsort_contract qsort -> Z.of_nat (length fid) <= LLONG_MAX ->
  let m := Z.to_nat (cutoff g (Z.of_nat (length (corpus_vocab fid)))) in
  drop m (vocab (get_counts_rank qsort g fid))
  = drop m (presorted qsort g fid).
Proof.
  intros Hq Hlen m.
  destruct (ranked_prefix_eq qsort Hq g fid Hlen) as [Heq Hm].
  fold m in Heq, Hm. rewrite Heq in Hm.
  destruct (get_counts_rank_eq qsort g fid) as (_ & _ & Hv & _).
  rewrite Hv. fold (presorted qsort g fid). fold m.
  unfold qsort_array. simpl compar.
  by rewrite drop_app_length'.
Qed.

Lemma fout_unlimited_unique
    (qsort1 qsort2 : (VOCAB -> VOCAB -> Z) -> list VOCAB -> list VOCAB)
    (g : globals) (fid : list char) :
  qsort_contract qsort1 -> qsort_contract qsort2 ->
  Z.of_nat (length fid) <= LLONG_MAX ->
  ~ 0 < max_vocab g < Z.of_nat (length (corpus_vocab fid)) ->
  fout (get_counts_run qsort1 g fid) = fout (get_counts_run qsort2 g fid).
Proof.
  intros Hq1 Hq2 Hlen Hlim.
  change (emit (min_count g) (ranked_prefix (get_counts_rank qsort1 g fid))
          = emit (min_count g) (ranked_prefix (get_counts_rank qsort2 g fid))).
  f_equal. apply (StronglySorted_unique_strong ranks_before).
  - intros x y _ _ Hxy Hyx. by destruct (ranks_before_asym x y).
  - by apply ranked_prefix_strongly.
  - by apply ranked_prefix_strongly.
  - rewrite (ranked_prefix_unlimited qsort1 g fid Hq1 Hlen Hlim).
    by rewrite (ranked_prefix_unlimited qsort2 g fid Hq2 Hlen Hlim).
Qed.

Lemma ranks_before_bytewise (fid : list char) (a b : VOCAB) :
  Z.of_nat (length fid) <= LLONG_MAX ->
  Forall (fun c => 0 <= c <= 255) fid ->
  a ∈ corpus_vocab fid -> b ∈ corpus_vocab fid ->
  ranks_before a b -> ranks_bytewise a b.
Proof.
  intros Hlen Hfid Ha Hb [Hlt|[Heq Hlex]]; [by left|].
  right. split; [done|].
  destruct (corpus_vocab_ok fid Hlen) as (_ & _ & Hc).
  rewrite Forall_forall in Hc. rewrite Forall_forall in Hfid.
  assert (Hword : forall v, v ∈ corpus_vocab fid ->
            Forall (fun c => 0 < c <= 255) (word v)).
  { intros v Hv. apply Forall_forall. intros c Hcv.
    pose proof (Hfid c (corpus_vocab_bytes fid v c Hlen Hv Hcv)).
    pose proof (cstr_nul_free (word v)) as Hnul.
    rewrite (Hc v Hv), Forall_forall in Hnul.
    specialize (Hnul c Hcv). lia. }
  by apply lex_lt_bytewise_lt; [apply Hword..|].
Qed.

Lemma field_width_pos : (0 < field_width)%nat.
Proof. unfold field_width, MAX_STRING_LENGTH. lia. Qed.

Lemma pieces_nil (n : nat) : (0 < n)%nat -> pieces n [] = [].
Proof.
  intros Hn. unfold pieces. simpl length.
  by rewrite Nat.div_small by lia.
Qed.

Lemma pieces_step (n : nat) (run : list char) :
  (0 < n)%nat -> run <> [] ->
  pieces n run = take n run :: pieces n (drop n run).
Proof.
  intros Hn Hne. unfold pieces.
  assert (Hcount : ((length run + n - 1) / n
                    = S ((length (drop n run) + n - 1) / n))%nat).
  { rewrite length_drop. destruct run as [|c run]; [done|]. simpl length.
    destruct (Nat.le_gt_cases (S (length run)) n) as [Hle|Hgt].
    - replace (S (length run) - n)%nat with 0%nat by lia.
      rewrite (Nat.div_small (0 + n - 1)) by lia.
      symmetry. apply (Nat.div_unique _ _ _ (length run)); lia.
    - replace (S (length run) + n - 1)%nat
        with ((S (length run) - n + n - 1) + 1 * n)%nat by lia.
      rewrite Nat.div_add by lia. lia. }
  rewrite Hcount. simpl seq. rewrite fmap_cons. f_equal.
  rewrite <- fmap_S_seq, <- list_fmap_compose.
  apply list_fmap_ext. intros _ k _. simpl.
  by rewrite drop_drop.
Qed.

Lemma scan_word_app (n : nat) (s b str rest : list char) :
  run_end b -> scan_word n s = (str, rest) ->
  scan_word n (s ++ b) = (str, rest ++ b).
Proof.
  intros Hb. revert s str rest.
  induction n as [|n IH]; intros s str rest Hs.
  - destruct s; simpl in *; injection Hs as <- <-; by destruct b.
  - destruct s as [|c s]; simpl in *.
    + injection Hs as <- <-. destruct b as [|d b]; [done|].
      simpl in Hb. by rewrite Hb.
    + destruct (isspace c); [by injection Hs as <- <-|].
      destruct (scan_word n s) as [str' rest'] eqn:E.
      injection Hs as <- <-. by rewrite (IH s str' rest' E).
Qed.

Lemma skip_space_app (a b : list char) :
  skip_space a <> [] -> skip_space (a ++ b) = skip_space a ++ b.
Proof.
  induction a as [|c a IH]; simpl; [done|]. destruct (isspace c); auto.
Qed.

Lemma skip_space_nil (a : list char) :
  skip_space a = [] -> Forall (fun c => isspace c = true) a.
Proof.
  induction a as [|c a IH]; simpl; [constructor|].
  destruct (isspace c) eqn:E; [|done]. intros H. constructor; auto.
Qed.

Lemma fscanf_s_app (n : nat) (a b str rest : list char) :
  run_end b -> fscanf_s n a = Some (str, rest) ->
  fscanf_s n (a ++ b) = Some (str, rest ++ b).
Proof.
  intros Hb. unfold fscanf_s. intros Ha.
  destruct (skip_space a) as [|c s] eqn:Hskip; [done|].
  rewrite skip_space_app by (by rewrite Hskip). rewrite Hskip.
  injection Ha as Ha.
  change ((c :: s) ++ b) with (c :: s ++ b).
  f_equal. change (c :: s ++ b) with ((c :: s) ++ b).
  by apply scan_word_app.
Qed.

Lemma tokens_spaces (a b : list char) :
  Forall (fun c => isspace c = true) a -> tokens (a ++ b) = tokens b.
Proof.
  induction 1 as [|c a Hc _ IH]; simpl; [done|].
  by rewrite tokens_skip_space.
Qed.

(** The token stream splits where a white-space byte follows. *)
Lemma tokens_app_end (a b : list char) :
  run_end b -> tokens (a ++ b) = tokens a ++ tokens b.
Proof.
  intros Hb. remember (length a) as len eqn:Hlen. revert a Hlen.
  induction len as [len IH] using lt_wf_ind. intros a Hlen.
  rewrite (tokens_unfold a).
  destruct (fscanf_s (Z.to_nat MAX_STRING_LENGTH) a) as [[str rest]|]
    eqn:Hscan.
  - rewrite tokens_unfold, (fscanf_s_app _ a b str rest Hb Hscan).
    destruct MAX_STRING_LENGTH_pos as [w Hw]. rewrite Hw in Hscan.
    apply fscanf_s_consumes in Hscan as (Hlt & _ & _).
    simpl. f_equal. apply (IH (length rest)); [lia|done].
  - simpl. apply tokens_spaces, skip_space_nil.
    unfold fscanf_s in Hscan. by destruct (skip_space a).
Qed.

(** The token stream splits behind a white-space byte. *)
Lemma tokens_app_start (a b : list char) :
  run_start a -> tokens (a ++ b) = tokens a ++ tokens b.
Proof.
  unfold run_start. destruct a as [|x a' _] using rev_ind; [done|].
  rewrite last_snoc. intros Hc.
  rewrite <- app_assoc. simpl.
  rewrite (tokens_app_end a' (x :: b)), (tokens_app_end a' [x]) by done.
  rewrite !tokens_skip_space by done.
  change (tokens []) with (@nil (list char)). by rewrite app_nil_r.
Qed.

(** A run of non-white-space bytes is read as its pieces. *)
Lemma tokens_pieces (run : list char) :
  Forall (fun c => isspace c = false) run ->
  tokens run = pieces field_width run.
Proof.
  remember (length run) as len eqn:Hlen. revert run Hlen.
  induction len as [len IH] using lt_wf_ind. intros run Hlen Hrun.
  destruct run as [|c run'] eqn:Hr.
  { by rewrite pieces_nil by apply field_width_pos. }
  rewrite <- Hr in *.
  assert (Hne : run <> []) by (by rewrite Hr).
  rewrite (pieces_step _ run field_width_pos Hne).
  rewrite tokens_unfold. fold field_width.
  pose proof (fscanf_s_run field_width run [] Hrun Hne I) as Hscan.
  rewrite !app_nil_r in Hscan. rewrite Hscan. f_equal.
  apply (IH (length (drop field_width run))); [|done|by apply Forall_drop].
  rewrite length_drop, Hlen, Hr. simpl. pose proof field_width_pos. lia.
Qed.

(** * The claims of the specification *)




(** C2. With N the number of entries migrated from the table: if
    [max_vocab > 0] and [max_vocab < N] the cutoff M is [max_vocab],
    otherwise M is N; at most M entries are emitted (at most [max_vocab]
    when [max_vocab > 0]), and [max_vocab = 0] sets no limit.  [qsort] is
    called on all N entries with the comparator without tie-break if and
    only if M < N, and the tie-breaking sort of the first M entries works
    on the array this leaves.  For a [qsort] that keeps its contract (and
    a corpus shorter than the range of [long long]): when M < N the array
    between the two sorts holds the migrated entries in descending order of
    count; the first M entries of the final array are the first M entries
    of that array in the order of the tie-breaking comparator, and the
    entries behind them are not touched. *)
Theorem cutoff_and_presort
    (qsort : (VOCAB -> VOCAB -> Z) -> list VOCAB -> list VOCAB)
    (g : globals) (fid : list char) :
  let r := get_counts_run qsort g fid in
  let N := j_final (before_emission r) in
  let M := max_vocab_final (before_emission r) in
  let migrated := corpus_vocab fid in
  let between := presorted qsort g fid in
  let final := vocab (before_emission r) in
  N = Z.of_nat (length (entries (count_tokens (tokens fid)))) /\
  (0 < max_vocab g < N -> M = max_vocab g) /\
  (~ 0 < max_vocab g < N -> M = N) /\
  Z.of_nat (length (fout r)) <= M /\
  (0 < max_vocab g -> Z.of_nat (length (fout r)) <= max_vocab g) /\
  (max_vocab g = 0 -> M = N) /\
  (M < N ->
   qsort_calls (before_emission r)
   = [(Z.to_nat N, Compare_Vocab); (Z.to_nat M, Compare_VocabTie)]) /\
  (~ M < N ->
   qsort_calls (before_emission r) = [(Z.to_nat M, Compare_VocabTie)]) /\
  (M < N ->
   between = qsort_array qsort migrated (Z.to_nat N) Compare_Vocab) /\
  (~ M < N -> between = migrated) /\
  final = qsort_array qsort between (Z.to_nat M) Compare_VocabTie /\
  (qsort_contract qsort -> Z.of_nat (length fid) <= LLONG_MAX ->
   (M < N ->
    between ≡ₚ migrated /\ StronglySorted count_descends between) /\
   take (Z.to_nat M) final ≡ₚ take (Z.to_nat M) between /\
   StronglySorted ranks_before (take (Z.to_nat M) final) /\
   drop (Z.to_nat M) final = drop (Z.to_nat M) between).
Proof.
  intros r N M migrated between final. subst r N M migrated between final.
  change (before_emission (get_counts_run qsort g fid))
    with (get_counts_rank qsort g fid).
  change (fout (get_counts_run qsort g fid))
    with (emit (min_count g) (ranked_prefix (get_counts_rank qsort g fid))).
  destruct (get_counts_rank_eq qsort g fid) as (HN & HM & Hv & Hcalls).
  fold (presorted qsort g fid) in Hv.
  rewrite Hcalls, HM, HN.
  assert (Hout : Z.of_nat (length (emit (min_count g)
             (ranked_prefix (get_counts_rank qsort g fid))))
           <= cutoff g (Z.of_nat (length (corpus_vocab fid)))).
  { pose proof (emit_length (min_count g)
                  (ranked_prefix (get_counts_rank qsort g fid))) as Hle.
    unfold ranked_prefix in Hle at 2. rewrite length_take, HM in Hle.
    pose proof (cutoff_range g (Z.of_nat (length (corpus_vocab fid)))).
    lia. }
  pose proof (ranked_prefix_perm qsort g fid) as Hperm.
  pose proof (ranked_prefix_strongly qsort g fid) as Hstrong.
  pose proof (ranked_rest qsort g fid) as Hrest.
  pose proof (presorted_descends qsort g fid) as Hdesc.
  pose proof (fun Hq => presorted_perm qsort Hq g fid) as Hpperm.
  unfold ranked_prefix in Hperm, Hstrong.
  rewrite HM in Hperm, Hstrong. cbv zeta in Hperm, Hrest.
  revert Hout Hperm Hstrong Hrest Hdesc Hpperm Hv.
  unfold presorted.
  set (N := Z.of_nat (length (corpus_vocab fid))).
  assert (HN0 : 0 <= N) by lia.
  assert (HN' : N = Z.of_nat (length (entries (count_tokens (tokens fid))))).
  { unfold N, corpus_vocab, migrate. by rewrite length_fmap. }
  unfold cutoff, size_limited.
  destruct (Z.gtb_spec (max_vocab g) 0), (Z.ltb_spec (max_vocab g) N);
    simpl; intros Hout Hperm Hstrong Hrest Hdesc Hpperm Hv;
    (split; [exact HN'|]);
    repeat (split; [try done; intros; try lia|]);
    intros; repeat split; intros;
    first [ done | lia | by apply Hperm | by apply Hstrong | by apply Hrest
          | by apply Hpperm | apply Hdesc; (done || lia) ].
Qed.

(** C2 on the corpus ["x x y y z"] with [max_vocab = 2]: three entries are
    migrated, the cutoff is 2, and the array between the two sorts is in
    descending order of count. *)
Lemma cutoff_and_presort_witness :
  max_vocab_final
    (before_emission
       (get_counts_run insertion_qsort (mkGlobals 2 1 2)
          [120; 32; 120; 32; 121; 32; 121; 32; 122]))
  = max_vocab (mkGlobals 2 1 2) /\
  StronglySorted count_descends
    (presorted insertion_qsort (mkGlobals 2 1 2)
       [120; 32; 120; 32; 121; 32; 121; 32; 122]).
Proof.
  split.
  - refine (proj1 (proj2 (cutoff_and_presort insertion_qsort (mkGlobals 2 1 2)
                            [120; 32; 120; 32; 121; 32; 121; 32; 122])) _).
    by vm_compute.
  - refine (proj2 (proj1 ((proj2 (proj2 (proj2 (proj2 (proj2 (proj2
      (proj2 (proj2 (proj2 (proj2 (proj2
        (cutoff_and_presort insertion_qsort (mkGlobals 2 1 2)
           [120; 32; 120; 32; 121; 32; 121; 32; 122]))))))))))))
      insertion_qsort_contract _) _));
      by vm_compute.
Defined.

(** C3. Emission walks the ranked entries from the front and stops at the
    first entry whose count is below [min_count]: what is printed is a
    prefix of the ranked entries, every printed entry has a count of at
    least [min_count], the entry at the stopping point (when there is one)
    has a count below [min_count] and nothing from there on is printed;
    this is how [get_counts] produces its output, and there, for a corpus
    shorter than the range of [long long], all counts are at least 1, so
    that [min_count <= 1] excludes nothing. *)
Theorem min_count_truncation :
  (forall (m : Z) (ranked : list VOCAB),
     exists rest,
       ranked = emit m ranked ++ rest /\
       Forall (fun v => m <= count v) (emit m ranked) /\
       match rest with
       | [] => True
       | v :: _ => count v < m
       end) /\
  (forall qsort g fid,
     qsort_contract qsort -> Z.of_nat (length fid) <= LLONG_MAX ->
     let ranked := ranked_prefix (get_counts_rank qsort g fid) in
     fout (get_counts_run qsort g fid) = emit (min_count g) ranked /\
     Forall (fun v => 1 <= count v) ranked /\
     (min_count g <= 1 -> fout (get_counts_run qsort g fid) = ranked)).
Proof.
  split.
  - intros m ranked. destruct (emit_prefix m ranked) as (rest & H1 & H2 & H3).
    exists rest. repeat split; [done|done|].
    destruct rest; [done|]. by destruct H3.
  - intros qsort g fid Hq Hlen ranked.
    destruct (ranked_prefix_ok qsort Hq g fid Hlen) as ((_ & Hr & _) & _).
    fold ranked in Hr.
    assert (Hpos : Forall (fun v => 1 <= count v) ranked).
    { eapply Forall_impl; [apply Hr|]. by intros v [? _]. }
    repeat split; [done|].
    intros Hm.
    change (fout (get_counts_run qsort g fid))
      with (emit (min_count g) ranked).
    apply emit_all. eapply Forall_impl; [apply Hpos|].
    simpl. intros; lia.
Qed.

(** C3 on the corpus ["a b a"] with [min_count = 1]: nothing is left out. *)
Lemma min_count_truncation_witness :
  fout (get_counts_run insertion_qsort (mkGlobals 2 1 0) [97; 32; 98; 32; 97])
  = ranked_prefix
      (get_counts_rank insertion_qsort (mkGlobals 2 1 0) [97; 32; 98; 32; 97]).
Proof.
  refine (proj2 (proj2 (proj2 min_count_truncation insertion_qsort
    (mkGlobals 2 1 0) [97; 32; 98; 32; 97] insertion_qsort_contract _)) _);
    by vm_compute.
Defined.



(** C5. At every point of the counting phase the table holds at most one
    entry per distinct token ([hashinsert] keeps tables well formed, and a
    well-formed table stores every word once), and so each token appears
    at most once in the output. *)
Theorem tokens_are_unique :
  (forall toks, NoDup (hword <$> entries (count_tokens toks))) /\
  (forall ht w, table_ok ht ->
     table_ok (hashinsert ht w) /\
     NoDup (hword <$> entries (hashinsert ht w))) /\
  (forall qsort g fid,
     qsort_contract qsort -> Z.of_nat (length fid) <= LLONG_MAX ->
     NoDup (word <$> fout (get_counts_run qsort g fid))).
Proof.
  split; [|split].
  - intros toks. apply table_ok_NoDup, count_tokens_ok.
  - intros ht w Hok. pose proof (hashinsert_ok ht w Hok) as Hok'.
    split; [done|by apply table_ok_NoDup].
  - intros qsort g fid Hq Hlen.
    destruct (ranked_prefix_ok qsort Hq g fid Hlen) as ((Hnd & _) & _).
    change (fout (get_counts_run qsort g fid))
      with (emit (min_count g) (ranked_prefix (get_counts_rank qsort g fid))).
    destruct (emit_prefix (min_count g)
                (ranked_prefix (get_counts_rank qsort g fid)))
      as (rest & Hl & _).
    rewrite Hl, fmap_app in Hnd. by apply NoDup_app in Hnd as (? & _).
Qed.

(** C5 on the output for the corpus ["a b a"]. *)
Lemma tokens_are_unique_witness :
  NoDup (word <$> fout (get_counts_run insertion_qsort (mkGlobals 2 1 0)
                          [97; 32; 98; 32; 97])).
Proof.
  apply (proj2 (proj2 tokens_are_unique));
    [apply insertion_qsort_contract|by vm_compute].
Defined.

(** C6 (as stated, refuted).  The corpus of the two runs [long_run_b] and
    [long_run_c], which differ only in byte 1001, is not read as two
    tokens that collapse into one entry: four tokens are read (the shared
    1000 bytes twice and the two last bytes), and the table has three
    entries. *)
Lemma over_length_runs_not_truncated :
  tokens (long_run_b ++ [32] ++ long_run_c)
  = [replicate 1000 97; [98]; replicate 1000 97; [99]] /\
  length (tokens (long_run_b ++ [32] ++ long_run_c)) <> 2%nat /\
  length (entries (count_tokens (tokens (long_run_b ++ [32] ++ long_run_c))))
  = 3%nat.
Proof. by vm_compute. Qed.

(** C6 (amended).  A run of non-white-space bytes that is delimited by
    white-space (or by the start or the end of the corpus) is not
    truncated: [fscanf] cuts it after every [MAX_STRING_LENGTH] bytes and
    every piece is counted as a token, so a run longer than
    [MAX_STRING_LENGTH] gives at least two tokens, the first of them its
    first 1000 bytes.  So, for two such over-length runs anywhere in a
    corpus (shorter than the range of [long long]) that share their first
    1000 bytes [p]: the token stream holds, between the tokens of what
    surrounds the runs, the pieces of the first run and the pieces of the
    second run, and the table holds one entry for [p] (read as a C string,
    up to its first NUL if it has one), with a count of at least 2. *)
Theorem over_length_runs_are_split :
  (forall pre run rest : list char,
     Forall (fun c => isspace c = false) run ->
     run_start pre -> run_end rest ->
     tokens (pre ++ run ++ rest)
     = tokens pre ++ pieces field_width run ++ tokens rest /\
     ((field_width < length run)%nat ->
      (2 <= length (pieces field_width run))%nat /\
      pieces field_width run !! 0%nat = Some (take field_width run) /\
      length (take field_width run) = Z.to_nat MAX_STRING_LENGTH)) /\
  (forall pre r1 mid r2 rest : list char,
     Forall (fun c => isspace c = false) r1 ->
     Forall (fun c => isspace c = false) r2 ->
     (field_width < length r1)%nat -> (field_width < length r2)%nat ->
     take field_width r1 = take field_width r2 ->
     run_start pre ->
     mid <> [] -> run_end mid -> run_start mid ->
     run_end rest ->
     Z.of_nat (length (pre ++ r1 ++ mid ++ r2 ++ rest)) <= LLONG_MAX ->
     let p := take field_width r1 in
     let fid := pre ++ r1 ++ mid ++ r2 ++ rest in
     tokens fid
     = tokens pre ++ pieces field_width r1 ++ tokens mid
       ++ pieces field_width r2 ++ tokens rest /\
     (exists c, 2 <= c /\
        forall c',
          mkHASHREC (cstr p) c' ∈ entries (count_tokens (tokens fid))
          <-> c' = c)).
Proof.
  pose proof field_width_pos as Hw.
  assert (Hpieces : forall r, (field_width < length r)%nat ->
            exists more, more <> [] /\
              pieces field_width r = take field_width r :: more).
  { intros r Hl.
    assert (Hne : r <> []) by (destruct r; [simpl in Hl; lia|done]).
    assert (Hne' : drop field_width r <> []).
    { intros H. apply (f_equal length) in H.
      rewrite length_drop in H. simpl in H. lia. }
    exists (pieces field_width (drop field_width r)). split.
    - by rewrite (pieces_step _ _ Hw Hne').
    - by apply pieces_step. }
  split.
  - intros pre run rest Hrun Hpre Hrest. split.
    + rewrite (tokens_app_start pre), (tokens_app_end run) by done.
      by rewrite (tokens_pieces run Hrun).
    + intros Hl. destruct (Hpieces run Hl) as (more & Hm & ->).
      split; [destruct more; [done|simpl; lia]|]. split; [done|].
      rewrite length_take. unfold field_width in *. lia.
  - intros pre r1 mid r2 rest Hr1 Hr2 Hl1 Hl2 Hp Hpre Hmid Hmid_end
      Hmid_start Hrest Hlen p fid.
    destruct (Hpieces r1 Hl1) as (more1 & Hm1 & Hp1).
    destruct (Hpieces r2 Hl2) as (more2 & Hm2 & Hp2).
    rewrite <- Hp in Hp2. fold p in Hp1, Hp2.
    assert (Htok : tokens fid
              = tokens pre ++ pieces field_width r1 ++ tokens mid
                ++ pieces field_width r2 ++ tokens rest).
    { unfold fid.
      rewrite (tokens_app_start pre) by done.
      rewrite (tokens_app_end r1).
      2:{ destruct mid; [done|]. exact Hmid_end. }
      rewrite (tokens_app_start mid) by done.
      rewrite (tokens_app_end r2) by done.
      by rewrite (tokens_pieces r1 Hr1), (tokens_pieces r2 Hr2). }
    split; [exact Htok|].
    exists (occurrences (cstr p) (tokens fid)).
    assert (Hocc : 2 <= occurrences (cstr p) (tokens fid)).
    { rewrite Htok, Hp1, Hp2. unfold occurrences.
      rewrite !filter_app, !length_app, !filter_cons, !decide_True by done.
      simpl. lia. }
    split; [done|]. intros c'.
    rewrite count_tokens_entry.
    + split; [by intros [-> _]|intros ->; split; [done|lia]].
    + pose proof (tokens_length fid). fold fid in Hlen. lia.
Qed.

(** C6 (amended) on the two runs [long_run_b] and [long_run_c], separated
    by a blank. *)
Lemma over_length_runs_are_split_witness :
  exists c, 2 <= c /\
    forall c',
      mkHASHREC (cstr (take field_width long_run_b)) c'
        ∈ entries (count_tokens
                     (tokens ([] ++ long_run_b ++ [32] ++ long_run_c ++ [])))
      <-> c' = c.
Proof.
  refine (proj2
    (proj2 over_length_runs_are_split [] long_run_b [32] long_run_c []
       _ _ _ _ _ _ _ _ _ _ _));
    try (by vm_compute).
  - apply Forall_forall. intros c Hc.
    unfold long_run_b in Hc. apply elem_of_app in Hc as [Hc|Hc].
    + apply elem_of_replicate in Hc as [-> _]. done.
    + apply list_elem_of_singleton in Hc as ->. done.
  - apply Forall_forall. intros c Hc.
    unfold long_run_c in Hc. apply elem_of_app in Hc as [Hc|Hc].
    + apply elem_of_replicate in Hc as [-> _]. done.
    + apply list_elem_of_singleton in Hc as ->. done.
Defined.

(** C7. For every sequence of observed tokens, the (word, count) pairs
    enumerated from the move-to-front hash table are, as a multiset, the
    pairs of a plain associative map that observed the same tokens without
    any chain reordering. *)
Theorem move_to_front_preserves_counts (toks : list (list char)) :
  table_pairs (count_tokens toks) ≡ₚ map_to_list (plain_count toks).
Proof.
  rewrite <- table_map_count_tokens.
  symmetry. apply map_to_list_to_map, table_pairs_NoDup, count_tokens_ok.
Qed.

(** C8. For any corpus, [max_vocab] and [min_count], two runs of
    [vocab_count] that differ only in the verbosity both return, with the
    same ranked array and cutoff, and their output streams hold the same
    entries and the same bytes. *)
Theorem verbosity_does_not_change_output
    (qsort : (VOCAB -> VOCAB -> Z) -> list VOCAB -> list VOCAB)
    (fid : list char) (verbosity1 verbosity2 max_vocab_count min_word_count : Z) :
  exists r1 r2,
    vocab_count qsort (Some fid) true
      verbosity1 max_vocab_count min_word_count true = Returned 0 r1 /\
    vocab_count qsort (Some fid) true
      verbosity2 max_vocab_count min_word_count true = Returned 0 r2 /\
    vocab (before_emission r1) = vocab (before_emission r2) /\
    max_vocab_final (before_emission r1) = max_vocab_final (before_emission r2) /\
    fout r1 = fout r2 /\
    fout_bytes r1 = fout_bytes r2.
Proof.
  set (g1 := mkGlobals verbosity1 min_word_count max_vocab_count).
  set (g2 := mkGlobals verbosity2 min_word_count max_vocab_count).
  exists (get_counts_run qsort g1 fid), (get_counts_run qsort g2 fid).
  change (before_emission (get_counts_run qsort g1 fid))
    with (get_counts_rank qsort g1 fid).
  change (before_emission (get_counts_run qsort g2 fid))
    with (get_counts_rank qsort g2 fid).
  destruct (get_counts_rank_eq qsort g1 fid) as (_ & HM1 & Hv1 & _).
  destruct (get_counts_rank_eq qsort g2 fid) as (_ & HM2 & Hv2 & _).
  assert (Hv : vocab (get_counts_rank qsort g1 fid)
               = vocab (get_counts_rank qsort g2 fid)).
  { by rewrite Hv1, Hv2. }
  assert (HM : max_vocab_final (get_counts_rank qsort g1 fid)
               = max_vocab_final (get_counts_rank qsort g2 fid)).
  { by rewrite HM1, HM2. }
  assert (Hout : fout (get_counts_run qsort g1 fid)
                 = fout (get_counts_run qsort g2 fid)).
  { change (emit (min_count g1) (ranked_prefix (get_counts_rank qsort g1 fid))
            = emit (min_count g2) (ranked_prefix (get_counts_rank qsort g2 fid))).
    unfold ranked_prefix. by rewrite Hv, HM. }
  repeat split; try done. unfold fout_bytes. by rewrite Hout.
Qed.

(** C9 (what the code does).  When the log file cannot be opened,
    [vocab_count] ends in [exit(1)] before anything is processed.  When the
    corpus or the output file cannot be opened, no test is made: the log
    already holds the first message when the null stream reaches [fscanf],
    and with a null output stream the whole corpus is counted and ranked
    before the null stream reaches [fprintf] or [fclose]; the call never
    ends in an exit. *)
Theorem unopened_streams
    (qsort : (VOCAB -> VOCAB -> Z) -> list VOCAB -> list VOCAB)
    (fid : option (list char)) (input : list char) (fout_open : bool)
    (verbosity max_vocab_count min_word_count : Z) :
  let g := mkGlobals verbosity min_word_count max_vocab_count in
  vocab_count qsort fid fout_open
    verbosity max_vocab_count min_word_count false = Exited 1 /\
  vocab_count qsort None fout_open
    verbosity max_vocab_count min_word_count true
  = Undefined_null_stream
      (log_if g 1 (Processed_tokens_head 0) [BUILDING_VOCABULARY]) /\
  exists log,
    vocab_count qsort (Some input) false
      verbosity max_vocab_count min_word_count true
    = Undefined_null_stream log /\
    BUILDING_VOCABULARY ∈ log.
Proof.
  intros g. repeat split.
  unfold vocab_count, get_counts. fold g.
  pose proof (ranked_log_first qsort g input) as Hlog.
  simpl negb. cbv iota.
  destruct (ranked_prefix _) as [|v ?]; [by eexists|].
  destruct (count v <? min_count g); eexists; split; try done.
  by apply log_if_keeps.
Qed.

(** C10. For every table state the counting phase can reach before the
    counts leave the range of [long long], and every token [w],
    [hashinsert] changes only the entry of [w]: the records of every other
    word are the same before and after, no word is removed, every word is
    still stored once, and either [w] was absent and is now stored with
    count 1 (the stored words grow by exactly [w]), or [w] was stored with
    count [c] and is now stored with count [c + 1] (the stored words are
    the same). *)
Theorem hashinsert_frame (n : Z) (ht : list (list HASHREC)) (w : list char) :
  table_ok ht -> counts_ok n ht -> n < LLONG_MAX ->
  let k := cstr w in
  let ht' := hashinsert ht w in
  (forall r, hword r <> k -> (r ∈ entries ht' <-> r ∈ entries ht)) /\
  (forall r, r ∈ entries ht -> hword r ∈ hword <$> entries ht') /\
  NoDup (hword <$> entries ht') /\
  (((k ∉ hword <$> entries ht) /\
    mkHASHREC k 1 ∈ entries ht' /\
    hword <$> entries ht' ≡ₚ (hword <$> entries ht) ++ [k]) \/
   (exists c,
      mkHASHREC k c ∈ entries ht /\
      mkHASHREC k (c + 1) ∈ entries ht' /\
      hword <$> entries ht' ≡ₚ hword <$> entries ht)).
Proof.
  intros Hok [Hpos Hsum] Hn k ht'.
  pose proof (table_ok_NoDup _ (hashinsert_ok ht w Hok)) as Hnd'.
  fold ht' in Hnd'.
  destruct (hashinsert_entries ht w Hok)
    as [[Hnew Hperm]|(r0 & others & Hr0 & Hperm & Hperm')];
    fold ht' in Hperm; fold k in Hperm.
  - repeat split; try done.
    + rewrite Hperm, elem_of_app, list_elem_of_singleton.
      intros [?| ->]; [done|]. by simpl in *.
    + rewrite Hperm. set_solver.
    + intros r Hr. apply list_elem_of_fmap. exists r. split; [done|].
      rewrite Hperm. set_solver.
    + left. repeat split; [done| |].
      * rewrite Hperm. set_solver.
      * by rewrite Hperm, fmap_app.
  - fold ht' in Hperm'. fold k in Hr0.
    assert (Hin : r0 ∈ entries ht) by (rewrite Hperm; by left).
    assert (Hc1 : 1 <= hcount r0).
    { rewrite Forall_forall in Hpos. by apply Hpos. }
    assert (Hc2 : hcount r0 <= n).
    { rewrite <- Hsum. by apply sum_counts_bound. }
    assert (Hincr : count_incr r0 = mkHASHREC k (hcount r0 + 1)).
    { unfold count_incr. rewrite Hr0. f_equal.
      apply wrap64_small. unfold LLONG_MAX in Hn. lia. }
    assert (Hr0' : r0 = mkHASHREC k (hcount r0)).
    { destruct r0; simpl in *. by subst. }
    repeat split; try done.
    + rewrite Hperm', Hperm, !elem_of_cons.
      intros [->|?]; [|by right]. by rewrite Hincr in H.
    + rewrite Hperm', Hperm, !elem_of_cons.
      intros [->|?]; [done|by right].
    + intros r Hr. rewrite Hperm in Hr. rewrite Hperm'.
      apply elem_of_cons in Hr as [->|Hr]; simpl.
      * by left.
      * right. apply list_elem_of_fmap. by exists r.
    + right. exists (hcount r0). repeat split.
      * by rewrite <- Hr0'.
      * rewrite Hperm', Hincr. by left.
      * by rewrite Hperm', Hperm.
Qed.

(** C10 on the table that holds ["a"] once, for the token ["a"]. *)
Lemma hashinsert_frame_witness :
  table_ok (count_tokens [[97]]) /\
  counts_ok 1 (count_tokens [[97]]) /\
  1 < LLONG_MAX /\
  NoDup (hword <$> entries (hashinsert (count_tokens [[97]]) [97])).
Proof.
  assert (H1 : table_ok (count_tokens [[97]])) by apply count_tokens_ok.
  assert (H2 : counts_ok 1 (count_tokens [[97]])).
  { apply (count_tokens_counts_ok [[97]]). by vm_compute. }
  assert (H3 : 1 < LLONG_MAX) by by vm_compute.
  exact (conj H1 (conj H2 (conj H3
    (proj1 (proj2 (proj2 (hashinsert_frame 1 _ [97] H1 H2 H3))))))).
Defined.

(** * Further properties of the code *)

(** ** [scmp] *)

(** X1. [scmp] is a three-way comparison of C strings: it gives 0 exactly
    for equal strings (bytes behind a NUL do not count), exchanging the
    arguments negates the result, and "not greater" is transitive. *)
Theorem scmp_three_way (s1 s2 s3 : list char) :
  (scmp s1 s2 = 0 <-> cstr s1 = cstr s2) /\
  scmp s2 s1 = - scmp s1 s2 /\
  (scmp s1 s2 <= 0 -> scmp s2 s3 <= 0 -> scmp s1 s3 <= 0).
Proof.
  split; [apply scmp_eq_0|]. split; [apply scmp_antisym|].
  apply scmp_le_trans.
Qed.

(** X2. The value of [scmp]: behind a common prefix without NUL, the result
    is the difference of the first two bytes that differ, and where one
    string ends it is the next byte of the other, negated when the first
    string is the one that ends. *)
Theorem scmp_first_difference (p t1 t2 : list char) (c1 c2 : char) :
  Forall (fun c => c <> 0) p ->
  (c1 <> c2 -> scmp (p ++ c1 :: t1) (p ++ c2 :: t2) = c1 - c2) /\
  scmp p (p ++ c2 :: t2) = - c2 /\
  scmp (p ++ c1 :: t1) p = c1.
Proof.
  intros Hp. split; [|split].
  - intros Hne. rewrite (scmp_common_prefix p _ _ Hp). simpl.
    destruct (Z.eqb_spec c1 0), (Z.eqb_spec c1 c2); simpl; congruence.
  - rewrite <- (app_nil_r p) at 1. rewrite (scmp_common_prefix p _ _ Hp).
    simpl. lia.
  - rewrite <- (app_nil_r p) at 2. rewrite (scmp_common_prefix p _ _ Hp).
    simpl. destruct (Z.eqb_spec c1 0), (Z.eqb_spec c1 0); simpl; lia.
Qed.

(** X2 on ["ab"] against ["ac"], ["abc"] and itself cut short. *)
Lemma scmp_first_difference_witness :
  scmp ([97] ++ 98 :: []) ([97] ++ 99 :: []) = 98 - 99 /\
  scmp [97] ([97] ++ 98 :: [99]) = - 98.
Proof.
  assert (Hp : Forall (fun c : Z => c <> 0) [97]) by (by repeat constructor).
  split.
  - apply (proj1 (scmp_first_difference [97] [] [] 98 99 Hp)). lia.
  - apply (proj1 (proj2 (scmp_first_difference [97] [] [99] 0 98 Hp))).
Defined.

(** X3. The result of [scmp] stays within the differences of byte values:
    for bytes between [lo] and [hi] it lies between [lo - hi] and
    [hi - lo], so that it fits an [int] for every range of [char]. *)
Theorem scmp_range (lo hi : Z) (s1 s2 : list char) :
  lo <= 0 <= hi ->
  Forall (fun c => lo <= c <= hi) s1 ->
  Forall (fun c => lo <= c <= hi) s2 ->
  lo - hi <= scmp s1 s2 <= hi - lo.
Proof.
  intros Hz H1. revert s2.
  induction H1 as [|c1 s1 Hc1 _ IH]; intros s2 H2.
  - destruct H2 as [|c2 s2 Hc2 _]; simpl; lia.
  - simpl. destruct H2 as [|c2 s2 Hc2 H2]; simpl.
    + destruct (negb (c1 =? 0) && (c1 =? 0)) eqn:Hb; [|lia].
      destruct (Z.eqb_spec c1 0); simpl in Hb; congruence.
    + destruct (negb (c1 =? 0) && (c1 =? c2)); [by apply IH|lia].
Qed.

(** X3 for signed bytes. *)
Lemma scmp_range_witness :
  -128 - 127 <= scmp [97; -61] [97; 127] <= 127 - -128.
Proof.
  apply (scmp_range (-128) 127); [lia|..];
    repeat constructor; lia.
Defined.

(** ** The comparators *)

(** X4. Both comparators return -1, 0 or 1 on counts alone; for counts
    that do not wrap, [CompareVocab] gives 0 exactly for equal counts and
    [CompareVocabTie] exactly for equal counts and equal words, and
    whenever [CompareVocab] decides, [CompareVocabTie] agrees with it. *)
Theorem comparators_results (a b : VOCAB) :
  count_in_range a -> count_in_range b ->
  (CompareVocab a b = -1 \/ CompareVocab a b = 0 \/ CompareVocab a b = 1) /\
  (CompareVocab a b = 0 <-> count a = count b) /\
  (CompareVocab a b = -1 <-> count b < count a) /\
  (CompareVocabTie a b = 0
   <-> count a = count b /\ cstr (word a) = cstr (word b)) /\
  (CompareVocab a b <> 0 -> CompareVocabTie a b = CompareVocab a b).
Proof.
  intros Ha Hb. unfold CompareVocab, CompareVocabTie.
  rewrite (count_sub_no_wrap a b Ha Hb).
  pose proof (scmp_eq_0 (word a) (word b)) as Heq.
  destruct (Z.eqb_spec (count b - count a) 0); simpl.
  - intuition lia.
  - destruct (Z.gtb_spec (count b - count a) 0); intuition lia.
Qed.

(** X4 on two entries with counts 3 and 2. *)
Lemma comparators_results_witness :
  CompareVocab (mkVOCAB [97] 3) (mkVOCAB [98] 2) = -1
  <-> count (mkVOCAB [98] 2) < count (mkVOCAB [97] 3).
Proof.
  refine (proj1 (proj2 (proj2
    (comparators_results (mkVOCAB [97] 3) (mkVOCAB [98] 2) _ _))));
    by vm_compute.
Defined.

(** X5. On entries whose counts do not wrap, both comparators are
    comparison functions as [qsort] requires them: exchanging the arguments
    exchanges "less" and "greater", and "not greater" is transitive. *)
Theorem comparators_consistent (c : comparator) (l : list VOCAB) :
  Forall count_in_range l -> consistent (compar c) l.
Proof.
  intros Hl. destruct c.
  - by apply CompareVocab_consistent.
  - by apply CompareVocabTie_consistent.
Qed.

(** X5 on two entries. *)
Lemma comparators_consistent_witness :
  consistent (compar Compare_VocabTie) [mkVOCAB [97] 3; mkVOCAB [98] 3].
Proof.
  apply comparators_consistent. repeat constructor; by vm_compute.
Defined.

(** ** [bitwisehash] *)

(** X6. For every table size [tsize > 0] and every seed of type
    [unsigned int], the running value of [bitwisehash] stays an
    [unsigned int], the result is an index below [tsize], and only the
    bytes before the first NUL are hashed. *)
Theorem bitwisehash_index (w : list char) (tsize seed : Z) :
  0 < tsize -> 0 <= seed < 2 ^ 32 ->
  0 <= bitwisehash_loop w seed < 2 ^ 32 /\
  0 <= bitwisehash w tsize seed < tsize /\
  bitwisehash (cstr w) tsize seed = bitwisehash w tsize seed /\
  (forall w', cstr w' = cstr w ->
     bitwisehash w' tsize seed = bitwisehash w tsize seed).
Proof.
  intros Ht Hs. split; [by apply bitwisehash_loop_range|].
  split; [unfold bitwisehash; apply Z.mod_pos_bound; lia|].
  split; [apply bitwisehash_cstr|].
  intros w' Hw. by rewrite <- (bitwisehash_cstr w'), Hw, bitwisehash_cstr.
Qed.

(** X6 for the table of [get_counts]. *)
Lemma bitwisehash_index_witness :
  0 <= bitwisehash [104; 105; 0; 33] TSIZE SEED < TSIZE.
Proof.
  refine (proj1 (proj2 (bitwisehash_index [104; 105; 0; 33] TSIZE SEED _ _)));
    by vm_compute.
Defined.

(** ** [inithashtable] and [hashinsert] *)

(** X7. The first [hashinsert] into the table of [inithashtable] leaves
    exactly one record: the C string of the buffer with count 1. *)
Theorem first_hashinsert (w : list char) :
  entries (hashinsert inithashtable w) = [mkHASHREC (cstr w) 1].
Proof.
  destruct (entries_hashinsert inithashtable w (proj1 inithashtable_ok))
    as (chain & before & after & Hchain & Hent & Hent').
  rewrite entries_inithashtable in Hent.
  destruct before as [|? ?]; [|discriminate Hent].
  destruct chain as [|? ?]; [|discriminate Hent].
  destruct after as [|? ?]; [|discriminate Hent].
  rewrite Hent'. reflexivity.
Qed.

(** X8. [hashinsert] reads its buffer as a C string: the bytes from the
    first NUL on change nothing, for any table. *)
Theorem hashinsert_reads_c_string (ht : list (list HASHREC)) (w : list char) :
  hashinsert ht (cstr w) = hashinsert ht w /\
  (forall w', cstr w' = cstr w -> hashinsert ht w' = hashinsert ht w).
Proof.
  assert (H : forall w0, hashinsert ht (cstr w0) = hashinsert ht w0).
  { intros w0. unfold hashinsert, HASHFN. rewrite bitwisehash_cstr.
    apply list_alter_ext; [|done]. intros chain _.
    apply hashinsert_chain_cstr. }
  split; [apply H|]. intros w' Hw. by rewrite <- (H w'), Hw, H.
Qed.

(** X9. The move-to-front policy on a chain: when the first record that
    holds the word stands behind the records [passed], it is unlinked,
    gets its count incremented and becomes the head, and the other records
    keep their order; when no record holds the word, a record with count 1
    is linked behind the last one. *)
Theorem move_to_front_policy (w : list char) (passed next : list HASHREC)
    (htmp : HASHREC) :
  Forall (differs_from w) passed ->
  (scmp (hword htmp) w = 0 ->
   hashinsert_chain w (passed ++ htmp :: next)
   = count_incr htmp :: passed ++ next) /\
  hashinsert_chain w passed = passed ++ [mkHASHREC (cstr w) 1].
Proof.
  intros Hpassed. split.
  - intros Hhit. unfold hashinsert_chain.
    rewrite (chain_scan_passed w passed _ Hpassed). simpl.
    rewrite Hhit. simpl. rewrite app_nil_r. by destruct passed.
  - unfold hashinsert_chain.
    rewrite <- (app_nil_r passed) at 1.
    rewrite (chain_scan_passed w passed [] Hpassed). simpl.
    by rewrite app_nil_r.
Qed.

(** X9 on the chain ["a"], ["b"], ["c"] for the token ["c"]. *)
Lemma move_to_front_policy_witness :
  hashinsert_chain [99]
    ([mkHASHREC [97] 1; mkHASHREC [98] 4] ++ mkHASHREC [99] 2 :: [])
  = count_incr (mkHASHREC [99] 2)
      :: [mkHASHREC [97] 1; mkHASHREC [98] 4] ++ [].
Proof.
  refine (proj1 (move_to_front_policy [99]
    [mkHASHREC [97] 1; mkHASHREC [98] 4] [] (mkHASHREC [99] 2) _) _).
  - repeat constructor; by vm_compute.
  - reflexivity.
Defined.

(** X10. [hashinsert] leaves the records of all other words as they are and
    in the order in which the table enumerates them, for any table. *)
Theorem hashinsert_keeps_other_records (ht : list (list HASHREC))
    (w : list char) :
  filter (differs_from w) (entries (hashinsert ht w))
  = filter (differs_from w) (entries ht).
Proof.
  unfold hashinsert.
  destruct (ht !! Z.to_nat (HASHFN w TSIZE SEED)) as [chain|] eqn:Hchain.
  - destruct (entries_alter (hashinsert_chain w) ht _ chain Hchain)
      as (before & after & -> & ->).
    by rewrite !filter_app, hashinsert_chain_others.
  - by rewrite alter_out_of_range.
Qed.

(** ** The counting phase *)

(** X11. The array migrated from the table holds exactly the strings that
    occur among the tokens of the corpus, each with the number of its
    occurrences as count (for a corpus shorter than the range of
    [long long]). *)
Theorem counts_are_occurrences (fid : list char) (v : VOCAB) :
  Z.of_nat (length fid) <= LLONG_MAX ->
  v ∈ corpus_vocab fid
  <-> 0 < count v /\ count v = occurrences (word v) (tokens fid).
Proof.
  intros Hlen. unfold corpus_vocab. rewrite migrate_elem.
  pose proof (tokens_length fid).
  rewrite count_tokens_entry by lia. tauto.
Qed.

(** X11 on the corpus ["a b a"]: the entry ["a"] with count 2. *)
Lemma counts_are_occurrences_witness :
  mkVOCAB [97] 2 ∈ corpus_vocab [97; 32; 98; 32; 97].
Proof.
  apply (counts_are_occurrences [97; 32; 98; 32; 97] (mkVOCAB [97] 2));
    by vm_compute.
Defined.

(** X12. The counts do not depend on the order of the tokens: two token
    streams that are permutations of each other give the same (word, count)
    pairs. *)
Theorem counts_ignore_token_order (toks1 toks2 : list (list char)) :
  toks1 ≡ₚ toks2 ->
  Z.of_nat (length toks1) <= LLONG_MAX ->
  table_pairs (count_tokens toks1) ≡ₚ table_pairs (count_tokens toks2).
Proof.
  intros Hp Hlen.
  assert (Hlen2 : Z.of_nat (length toks2) <= LLONG_MAX) by by rewrite <- Hp.
  apply NoDup_Permutation.
  - eapply NoDup_fmap_1, table_pairs_NoDup, count_tokens_ok.
  - eapply NoDup_fmap_1, table_pairs_NoDup, count_tokens_ok.
  - intros [k c]. rewrite !table_pairs_elem, !count_tokens_entry by done.
    by rewrite (occurrences_perm k toks1 toks2 Hp).
Qed.

(** X12 on ["a"], ["b"], ["a"] and ["b"], ["a"], ["a"]. *)
Lemma counts_ignore_token_order_witness :
  table_pairs (count_tokens [[97]; [98]; [97]])
  ≡ₚ table_pairs (count_tokens [[98]; [97]; [97]]).
Proof.
  apply counts_ignore_token_order; [|by vm_compute].
  apply perm_swap.
Defined.

(** X13. The number [j] of entries [get_counts] migrates is the number of
    distinct strings among the tokens of the corpus. *)
Theorem migrated_entries_are_distinct_tokens
    (qsort : (VOCAB -> VOCAB -> Z) -> list VOCAB -> list VOCAB)
    (g : globals) (fid : list char) :
  Z.of_nat (length fid) <= LLONG_MAX ->
  j_final (before_emission (get_counts_run qsort g fid))
  = Z.of_nat (length (remove_dups (cstr <$> tokens fid))).
Proof.
  intros Hlen.
  change (before_emission (get_counts_run qsort g fid))
    with (get_counts_rank qsort g fid).
  destruct (get_counts_rank_eq qsort g fid) as (-> & _).
  pose proof (tokens_length fid).
  rewrite <- (table_words_distinct_tokens (tokens fid)) by lia.
  unfold corpus_vocab, migrate. by rewrite !length_fmap.
Qed.

(** X13 on the corpus ["a b a"]. *)
Lemma migrated_entries_are_distinct_tokens_witness :
  j_final (before_emission
             (get_counts_run insertion_qsort (mkGlobals 2 1 0)
                [97; 32; 98; 32; 97]))
  = Z.of_nat (length (remove_dups (cstr <$> tokens [97; 32; 98; 32; 97]))).
Proof.
  apply migrated_entries_are_distinct_tokens. by vm_compute.
Defined.

(** ** The token source *)

(** X14. Tokenising loses the white-space only: the tokens written one
    after the other are the bytes of the corpus that are not white-space,
    in their order. *)
Theorem tokens_keep_non_space_bytes (fid : list char) :
  mjoin (tokens fid) = filter (fun c => isspace c = false) fid.
Proof. by apply tokens_fuel_join. Qed.

(** X15. Every buffer the loop of [get_counts] passes to [hashinsert] holds
    at least 1 and at most [MAX_STRING_LENGTH] bytes, none of them
    white-space. *)
Theorem tokens_well_formed (fid : list char) :
  Forall (fun str =>
            (1 <= length str <= Z.to_nat MAX_STRING_LENGTH)%nat /\
            Forall (fun c => isspace c = false) str)
    (tokens fid).
Proof.
  pose proof (tokens_bounded fid) as Hb.
  pose proof (tokens_fuel_non_space (length fid) fid) as Hn.
  fold (tokens fid) in Hn. rewrite Forall_forall in Hb, Hn.
  apply Forall_forall. intros str Hstr. split; [by apply Hb|by apply Hn].
Qed.

(** X16. Words of at most [MAX_STRING_LENGTH] bytes without white-space,
    written each with a white-space byte behind it, are read back as they
    are. *)
Theorem tokens_of_joined_words (sep : char) (ws : list (list char)) :
  isspace sep = true ->
  Forall (fun w => w <> [] /\ (length w <= field_width)%nat /\
                   Forall (fun c => isspace c = false) w) ws ->
  tokens (join_words sep ws) = ws.
Proof.
  intros Hsep. unfold join_words.
  induction 1 as [|w ws (Hne & Hlen & Hns) _ IH]; [done|].
  change (mjoin ((fun w => w ++ [sep]) <$> (w :: ws)))
    with ((w ++ [sep]) ++ mjoin ((fun w => w ++ [sep]) <$> ws)).
  rewrite <- app_assoc.
  rewrite (tokens_short_run w _ Hns Hne Hlen) by done.
  change ([sep] ++ mjoin ((fun w => w ++ [sep]) <$> ws))
    with (sep :: mjoin ((fun w => w ++ [sep]) <$> ws)).
  by rewrite (tokens_skip_space sep _ Hsep), IH.
Qed.

(** X16 on the words ["ab"] and ["c"] with line ends. *)
Lemma tokens_of_joined_words_witness :
  tokens (join_words 10 [[97; 98]; [99]]) = [[97; 98]; [99]].
Proof.
  apply tokens_of_joined_words; [done|].
  assert (Hw : forall w : list Z,
            (length w <= 2)%nat -> (length w <= field_width)%nat).
  { intros w Hw. cbv [field_width MAX_STRING_LENGTH]. lia. }
  constructor; [|constructor; [|constructor]].
  - split; [done|]. split; [apply Hw; simpl; lia|by repeat constructor].
  - split; [done|]. split; [apply Hw; simpl; lia|by repeat constructor].
Defined.

(** ** The ranking and the emission loop of [get_counts] *)

(** X17. The emission loop stops at the first entry below [min_count]; as
    the ranked entries have descending counts, what it prints is exactly
    the ranked entries with a count of at least [min_count]: no entry
    behind the stopping point would pass the test. *)
Theorem early_stop_is_threshold_filter
    (qsort : (VOCAB -> VOCAB -> Z) -> list VOCAB -> list VOCAB)
    (g : globals) (fid : list char) :
  qsort_contract qsort -> Z.of_nat (length fid) <= LLONG_MAX ->
  fout (get_counts_run qsort g fid)
  = filter (fun v => min_count g <= count v)
      (ranked_prefix (get_counts_rank qsort g fid)).
Proof.
  intros Hq Hlen.
  change (fout (get_counts_run qsort g fid))
    with (emit (min_count g) (ranked_prefix (get_counts_rank qsort g fid))).
  apply emit_filter.
  eapply StronglySorted_impl; [apply ranks_count_descends|].
  by apply ranked_prefix_strongly.
Qed.

(** X17 on the corpus ["x x y y z"] with [min_count = 2]. *)
Lemma early_stop_is_threshold_filter_witness :
  fout (get_counts_run insertion_qsort (mkGlobals 2 2 0)
          [120; 32; 120; 32; 121; 32; 121; 32; 122])
  = filter (fun v => min_count (mkGlobals 2 2 0) <= count v)
      (ranked_prefix (get_counts_rank insertion_qsort (mkGlobals 2 2 0)
                        [120; 32; 120; 32; 121; 32; 121; 32; 122])).
Proof.
  apply early_stop_is_threshold_filter;
    [apply insertion_qsort_contract|by vm_compute].
Defined.

(** X18. The whole output is strictly ranked, not only neighbours: every
    line ranks before every later line, that is, it has a larger count, or
    the same count and a word that is smaller in the order of [scmp] (the
    bytes compared as values of type [char], a word that has ended taken as
    the value 0).  When every byte of the corpus has a [char] value from 0
    to 255, the word is smaller in byte-wise lexicographic order. *)
Theorem output_strictly_ranked
    (qsort : (VOCAB -> VOCAB -> Z) -> list VOCAB -> list VOCAB)
    (g : globals) (fid : list char) (i j : nat) (a b : VOCAB) :
  qsort_contract qsort -> Z.of_nat (length fid) <= LLONG_MAX ->
  (i < j)%nat ->
  fout (get_counts_run qsort g fid) !! i = Some a ->
  fout (get_counts_run qsort g fid) !! j = Some b ->
  ranks_before a b /\
  (Forall (fun c => 0 <= c <= 255) fid -> ranks_bytewise a b).
Proof.
  intros Hq Hlen Hij Ha Hb.
  assert (Hranks : ranks_before a b).
  { pose proof (fout_strongly qsort g fid Hq Hlen) as Hs.
    revert Hs Ha Hb. generalize (fout (get_counts_run qsort g fid)) as l.
    intros l Hs. revert i j Hij.
    induction Hs as [|x l _ IH Hall]; intros i j Hij Ha Hb; [done|].
    destruct j as [|j]; [lia|]. simpl in Hb.
    destruct i as [|i]; simpl in Ha.
    - injection Ha as ->. rewrite Forall_forall in Hall.
      apply Hall. by apply list_elem_of_lookup_2 in Hb.
    - apply (IH i j); [lia|done..]. }
  split; [done|]. intros Hbytes.
  apply list_elem_of_lookup_2 in Ha, Hb.
  apply (ranks_before_bytewise fid); [done..| | |done].
  - by apply (fout_sub_corpus_vocab qsort g fid a Hq Hlen).
  - by apply (fout_sub_corpus_vocab qsort g fid b Hq Hlen).
Qed.

(** X18 on the first and the third line for the corpus ["a b a c b a"]. *)
Lemma output_strictly_ranked_witness :
  ranks_before (mkVOCAB [97] 3) (mkVOCAB [99] 1) /\
  ranks_bytewise (mkVOCAB [97] 3) (mkVOCAB [99] 1).
Proof.
  destruct (output_strictly_ranked insertion_qsort (mkGlobals 2 1 0)
              [97; 32; 98; 32; 97; 32; 99; 32; 98; 32; 97] 0 2
              (mkVOCAB [97] 3) (mkVOCAB [99] 1)) as [H1 H2];
    [apply insertion_qsort_contract|by vm_compute|lia
    |by vm_compute|by vm_compute|].
  split; [exact H1|]. apply H2.
  repeat constructor; lia.
Defined.

(** X19. Every line of the output is true: its count is the number of
    occurrences of its word among the tokens of the corpus, and it is at
    least [min_count] (and at least 1). *)
Theorem output_lines_are_true_counts
    (qsort : (VOCAB -> VOCAB -> Z) -> list VOCAB -> list VOCAB)
    (g : globals) (fid : list char) :
  qsort_contract qsort -> Z.of_nat (length fid) <= LLONG_MAX ->
  Forall (fun v => count v = occurrences (word v) (tokens fid) /\
                   min_count g <= count v /\ 1 <= count v)
    (fout (get_counts_run qsort g fid)).
Proof.
  intros Hq Hlen. apply Forall_forall. intros v Hv.
  destruct (fout_sub_corpus_vocab qsort g fid v Hq Hlen Hv) as [Hin Hmin].
  unfold corpus_vocab in Hin. apply migrate_elem in Hin.
  pose proof (tokens_length fid).
  apply count_tokens_entry in Hin as [Hocc Hpos]; [|lia]. lia.
Qed.

(** X19 on the corpus ["a b a"]. *)
Lemma output_lines_are_true_counts_witness :
  Forall (fun v => count v = occurrences (word v) (tokens [97; 32; 98; 32; 97])
                   /\ min_count (mkGlobals 2 1 0) <= count v /\ 1 <= count v)
    (fout (get_counts_run insertion_qsort (mkGlobals 2 1 0)
             [97; 32; 98; 32; 97])).
Proof.
  apply output_lines_are_true_counts;
    [apply insertion_qsort_contract|by vm_compute].
Defined.

(** X20. Every word of the output is one that a line can carry: it has at
    most [MAX_STRING_LENGTH] bytes and holds neither a white-space byte nor
    a NUL. *)
Theorem output_words_well_formed
    (qsort : (VOCAB -> VOCAB -> Z) -> list VOCAB -> list VOCAB)
    (g : globals) (fid : list char) :
  qsort_contract qsort -> Z.of_nat (length fid) <= LLONG_MAX ->
  Forall (fun v =>
            (length (word v) <= Z.to_nat MAX_STRING_LENGTH)%nat /\
            Forall (fun c => isspace c = false /\ c <> 0) (word v))
    (fout (get_counts_run qsort g fid)).
Proof.
  intros Hq Hlen. apply Forall_forall. intros v Hv.
  destruct (fout_sub_corpus_vocab qsort g fid v Hq Hlen Hv) as [Hin _].
  destruct (corpus_vocab_token fid v Hlen Hin) as (w & Hw & ->).
  pose proof (tokens_bounded fid) as Hb.
  pose proof (tokens_fuel_non_space (length fid) fid) as Hn.
  fold (tokens fid) in Hn. rewrite Forall_forall in Hb, Hn.
  specialize (Hb w Hw). specialize (Hn w Hw).
  pose proof (cstr_length w). split; [lia|].
  apply Forall_forall. intros c Hc. split.
  - rewrite Forall_forall in Hn. by apply Hn, cstr_bytes.
  - pose proof (cstr_nul_free w) as Hz. rewrite Forall_forall in Hz.
    by apply Hz.
Qed.

(** X20 on the corpus ["a b a"]. *)
Lemma output_words_well_formed_witness :
  Forall (fun v =>
            (length (word v) <= Z.to_nat MAX_STRING_LENGTH)%nat /\
            Forall (fun c => isspace c = false /\ c <> 0) (word v))
    (fout (get_counts_run insertion_qsort (mkGlobals 2 1 0)
             [97; 32; 98; 32; 97])).
Proof.
  apply output_words_well_formed;
    [apply insertion_qsort_contract|by vm_compute].
Defined.

(** ** The size limit of [get_counts] *)

(** X21. Without an effective size limit ([max_vocab] not positive, or not
    below the number of entries), the output holds exactly the entries of
    the table with a count of at least [min_count]: nothing else is left
    out. *)
Theorem unlimited_output_is_complete
    (qsort : (VOCAB -> VOCAB -> Z) -> list VOCAB -> list VOCAB)
    (g : globals) (fid : list char) (v : VOCAB) :
  qsort_contract qsort -> Z.of_nat (length fid) <= LLONG_MAX ->
  ~ 0 < max_vocab g < Z.of_nat (length (corpus_vocab fid)) ->
  v ∈ fout (get_counts_run qsort g fid)
  <-> v ∈ corpus_vocab fid /\ min_count g <= count v.
Proof.
  intros Hq Hlen Hlim.
  change (fout (get_counts_run qsort g fid))
    with (emit (min_count g) (ranked_prefix (get_counts_rank qsort g fid))).
  rewrite emit_filter.
  - rewrite list_elem_of_filter.
    rewrite (ranked_prefix_unlimited qsort g fid Hq Hlen Hlim). tauto.
  - eapply StronglySorted_impl; [apply ranks_count_descends|].
    by apply ranked_prefix_strongly.
Qed.

(** X21 on the corpus ["x x y y z"] with [min_count = 2]: ["y 2"] is
    printed. *)
Lemma unlimited_output_is_complete_witness :
  mkVOCAB [121] 2
    ∈ fout (get_counts_run insertion_qsort (mkGlobals 2 2 0)
              [120; 32; 120; 32; 121; 32; 121; 32; 122]).
Proof.
  apply (unlimited_output_is_complete insertion_qsort (mkGlobals 2 2 0)
           [120; 32; 120; 32; 121; 32; 121; 32; 122] (mkVOCAB [121] 2));
    [apply insertion_qsort_contract|by vm_compute| |].
  { intros [H _]. vm_compute in H. discriminate H. }
  split; [|by vm_compute].
  unfold corpus_vocab. apply migrate_elem.
  apply count_tokens_entry; by vm_compute.
Defined.

(** X22. Without an effective size limit the output does not depend on how
    [qsort] orders elements that compare equal: any two [qsort] that keep
    the contract give the same lines in the same order. *)
Theorem output_independent_of_qsort
    (qsort1 qsort2 : (VOCAB -> VOCAB -> Z) -> list VOCAB -> list VOCAB)
    (g : globals) (fid : list char) :
  qsort_contract qsort1 -> qsort_contract qsort2 ->
  Z.of_nat (length fid) <= LLONG_MAX ->
  ~ 0 < max_vocab g < Z.of_nat (length (corpus_vocab fid)) ->
  fout (get_counts_run qsort1 g fid) = fout (get_counts_run qsort2 g fid).
Proof. apply fout_unlimited_unique. Qed.

(** X22 on the corpus ["b a"], for insertion sort from the front and from
    the back. *)
Lemma output_independent_of_qsort_witness :
  fout (get_counts_run insertion_qsort (mkGlobals 2 1 0) [98; 32; 97])
  = fout (get_counts_run reversed_insertion_qsort (mkGlobals 2 1 0)
            [98; 32; 97]).
Proof.
  apply output_independent_of_qsort;
    [apply insertion_qsort_contract|apply reversed_insertion_qsort_contract
    |by vm_compute|].
  intros [H _]. vm_compute in H. discriminate H.
Defined.

(** X23. A size limit keeps the most frequent entries: every entry of the
    table that is left out of the ranked prefix has a count no larger than
    the count of any entry in it. *)
Theorem size_limit_keeps_most_frequent
    (qsort : (VOCAB -> VOCAB -> Z) -> list VOCAB -> list VOCAB)
    (g : globals) (fid : list char) (u v : VOCAB) :
  qsort_contract qsort -> Z.of_nat (length fid) <= LLONG_MAX ->
  u ∈ ranked_prefix (get_counts_rank qsort g fid) ->
  v ∈ corpus_vocab fid ->
  v ∉ ranked_prefix (get_counts_rank qsort g fid) ->
  count v <= count u.
Proof.
  intros Hq Hlen Hu Hv Hnv.
  destruct (decide (0 < max_vocab g < Z.of_nat (length (corpus_vocab fid))))
    as [Hlim|Hlim].
  - pose proof (presorted_descends qsort g fid Hq Hlen Hlim) as Hs.
    rewrite (ranked_prefix_perm qsort g fid Hq Hlen) in Hu, Hnv.
    rewrite <- (presorted_perm qsort Hq g fid Hlen) in Hv.
    set (m := Z.to_nat _) in Hu, Hnv.
    rewrite <- (take_drop m (presorted qsort g fid)) in Hs, Hv.
    apply elem_of_app in Hv as [Hv|Hv]; [done|].
    apply (StronglySorted_app_1_elem_of _ _ _ u v Hs); done.
  - by rewrite (ranked_prefix_unlimited qsort g fid Hq Hlen Hlim) in Hnv.
Qed.

(** X23 on the corpus ["x x y z"] with [max_vocab = 1]: ["z 1"] is left
    out and ["x 2"] is kept. *)
Lemma size_limit_keeps_most_frequent_witness :
  count (mkVOCAB [122] 1) <= count (mkVOCAB [120] 2).
Proof.
  apply (size_limit_keeps_most_frequent insertion_qsort (mkGlobals 2 1 1)
           [120; 32; 120; 32; 121; 32; 122]);
    [apply insertion_qsort_contract|by vm_compute|..].
  - assert (H : ranked_prefix (get_counts_rank insertion_qsort
                  (mkGlobals 2 1 1) [120; 32; 120; 32; 121; 32; 122])
                = [mkVOCAB [120] 2]) by by vm_compute.
    rewrite H. by left.
  - unfold corpus_vocab. apply migrate_elem.
    apply count_tokens_entry; by vm_compute.
  - assert (H : ranked_prefix (get_counts_rank insertion_qsort
                  (mkGlobals 2 1 1) [120; 32; 120; 32; 121; 32; 122])
                = [mkVOCAB [120] 2]) by by vm_compute.
    rewrite H. intros Hin. apply list_elem_of_singleton in Hin. discriminate.
Defined.

(** X24. Raising [min_count] only cuts the output short: with the same
    [max_vocab], the output for the larger [min_count] is a prefix of the
    output for the smaller one, whatever the verbosity. *)
Theorem raising_min_count_gives_prefix
    (qsort : (VOCAB -> VOCAB -> Z) -> list VOCAB -> list VOCAB)
    (g1 g2 : globals) (fid : list char) :
  max_vocab g1 = max_vocab g2 -> min_count g1 <= min_count g2 ->
  fout (get_counts_run qsort g2 fid)
    `prefix_of` fout (get_counts_run qsort g1 fid).
Proof.
  intros Hmax Hmin.
  change (emit (min_count g2) (ranked_prefix (get_counts_rank qsort g2 fid))
          `prefix_of`
          emit (min_count g1) (ranked_prefix (get_counts_rank qsort g1 fid))).
  rewrite (ranked_prefix_max_vocab qsort g1 g2 fid Hmax).
  by apply emit_mono.
Qed.

(** X24 on the corpus ["x x y z"], for [min_count] 1 and 2. *)
Lemma raising_min_count_gives_prefix_witness :
  fout (get_counts_run insertion_qsort (mkGlobals 0 2 0)
          [120; 32; 120; 32; 121; 32; 122])
    `prefix_of`
  fout (get_counts_run insertion_qsort (mkGlobals 2 1 0)
          [120; 32; 120; 32; 121; 32; 122]).
Proof.
  apply raising_min_count_gives_prefix; [reflexivity|].
  simpl. lia.
Defined.

(** X25. A [max_vocab] that is not positive, or not below the number N of
    entries, is no limit at all: the cutoff is N, [qsort] is called once,
    with the tie-breaking comparator on all N entries, and the ranked array
    and the output are those for [max_vocab = 0]. *)
Theorem ineffective_limit_is_no_limit
    (qsort : (VOCAB -> VOCAB -> Z) -> list VOCAB -> list VOCAB)
    (g : globals) (fid : list char) :
  let N := Z.of_nat (length (corpus_vocab fid)) in
  let g0 := mkGlobals (verbose g) (min_count g) 0 in
  ~ 0 < max_vocab g < N ->
  max_vocab_final (before_emission (get_counts_run qsort g fid)) = N /\
  qsort_calls (before_emission (get_counts_run qsort g fid))
  = [(Z.to_nat N, Compare_VocabTie)] /\
  vocab (before_emission (get_counts_run qsort g fid))
  = vocab (before_emission (get_counts_run qsort g0 fid)) /\
  fout (get_counts_run qsort g fid) = fout (get_counts_run qsort g0 fid).
Proof.
  intros N g0 Hlim. apply size_limited_false in Hlim.
  assert (Hlim0 : size_limited g0 N = false).
  { apply size_limited_false. simpl. lia. }
  change (before_emission (get_counts_run qsort g fid))
    with (get_counts_rank qsort g fid).
  change (before_emission (get_counts_run qsort g0 fid))
    with (get_counts_rank qsort g0 fid).
  change (fout (get_counts_run qsort g fid))
    with (emit (min_count g) (ranked_prefix (get_counts_rank qsort g fid))).
  change (fout (get_counts_run qsort g0 fid))
    with (emit (min_count g) (ranked_prefix (get_counts_rank qsort g0 fid))).
  unfold ranked_prefix.
  destruct (get_counts_rank_eq qsort g fid) as (_ & -> & -> & ->).
  destruct (get_counts_rank_eq qsort g0 fid) as (_ & -> & -> & _).
  fold N. unfold cutoff. rewrite Hlim, Hlim0. done.
Qed.

(** X25 on the corpus ["x x y z"] with [max_vocab = 7]. *)
Lemma ineffective_limit_is_no_limit_witness :
  fout (get_counts_run insertion_qsort (mkGlobals 2 1 7)
          [120; 32; 120; 32; 121; 32; 122])
  = fout (get_counts_run insertion_qsort
            (mkGlobals (verbose (mkGlobals 2 1 7))
               (min_count (mkGlobals 2 1 7)) 0)
            [120; 32; 120; 32; 121; 32; 122]).
Proof.
  refine (proj2 (proj2 (proj2 (ineffective_limit_is_no_limit insertion_qsort
    (mkGlobals 2 1 7) [120; 32; 120; 32; 121; 32; 122] _)))).
  intros [_ H]. revert H. by vm_compute.
Defined.

(** ** Edge cases and the log of [get_counts] *)

(** X26. A corpus without a token (empty, or white-space only) gives no
    entry and no output line, for every configuration and every [qsort]. *)
Theorem blank_corpus_gives_empty_output
    (qsort : (VOCAB -> VOCAB -> Z) -> list VOCAB -> list VOCAB)
    (g : globals) (fid : list char) :
  Forall (fun c => isspace c = true) fid ->
  tokens fid = [] /\
  j_final (before_emission (get_counts_run qsort g fid)) = 0 /\
  fout (get_counts_run qsort g fid) = [] /\
  fout_bytes (get_counts_run qsort g fid) = [] /\
  i_final (get_counts_run qsort g fid) = 0.
Proof.
  intros Hfid. pose proof (tokens_all_space fid Hfid) as Htok.
  assert (Hvocab : corpus_vocab fid = []).
  { unfold corpus_vocab. rewrite Htok.
    change (count_tokens []) with inithashtable.
    unfold migrate. by rewrite entries_inithashtable. }
  assert (Hout : fout (get_counts_run qsort g fid) = []).
  { change (fout (get_counts_run qsort g fid))
      with (emit (min_count g) (ranked_prefix (get_counts_rank qsort g fid))).
    unfold ranked_prefix.
    destruct (get_counts_rank_eq qsort g fid) as (_ & -> & _).
    rewrite Hvocab. pose proof (cutoff_range g 0 ltac:(lia)) as Hc.
    change (Z.of_nat (length [])) with 0.
    replace (cutoff g 0) with 0 by lia. done. }
  split; [done|]. split.
  - change (before_emission (get_counts_run qsort g fid))
      with (get_counts_rank qsort g fid).
    destruct (get_counts_rank_eq qsort g fid) as (-> & _).
    by rewrite Hvocab.
  - split; [done|]. split.
    + unfold fout_bytes. by rewrite Hout.
    + change (i_final (get_counts_run qsort g fid))
        with (Z.of_nat (length (fout (get_counts_run qsort g fid)))).
      by rewrite Hout.
Qed.

(** X26 on a corpus of a blank, a tab and a line end. *)
Lemma blank_corpus_gives_empty_output_witness :
  fout (get_counts_run insertion_qsort (mkGlobals 2 1 0) [32; 9; 10]) = [].
Proof.
  refine (proj1 (proj2 (proj2 (blank_corpus_gives_empty_output
    insertion_qsort (mkGlobals 2 1 0) [32; 9; 10] _)))).
  by repeat constructor.
Defined.

(** X27. With [verbose <= 0] the log holds two messages only: the heading
    and the size of the vocabulary that was written, which is the number of
    output lines. *)
Theorem quiet_run_log
    (qsort : (VOCAB -> VOCAB -> Z) -> list VOCAB -> list VOCAB)
    (g : globals) (fid : list char) :
  verbose g <= 0 ->
  logfile (get_counts_run qsort g fid)
  = [BUILDING_VOCABULARY;
     Using_vocabulary_of_size
       (Z.of_nat (length (fout (get_counts_run qsort g fid))))].
Proof.
  intros Hv. unfold get_counts_run. cbv zeta. cbn [logfile fout].
  rewrite (ranked_log_quiet qsort g fid) by lia.
  unfold log_if. destruct (Z.gtb_spec (verbose g) 0); [lia|].
  by destruct (emit_breaks _ _), (_ && _).
Qed.

(** X27 on the corpus ["a b a"] with [verbose = 0]. *)
Lemma quiet_run_log_witness :
  logfile (get_counts_run insertion_qsort (mkGlobals 0 1 0)
             [97; 32; 98; 32; 97])
  = [BUILDING_VOCABULARY;
     Using_vocabulary_of_size
       (Z.of_nat (length (fout (get_counts_run insertion_qsort
                                  (mkGlobals 0 1 0) [97; 32; 98; 32; 97]))))].
Proof. apply quiet_run_log. simpl. lia. Defined.

(** X28. The last message of the log always gives the number of output
    lines; and with [verbose > 1] the log reports the number of tokens read
    and the number of distinct tokens (for a corpus shorter than the range
    of [long long]). *)
Theorem log_reports_counts
    (qsort : (VOCAB -> VOCAB -> Z) -> list VOCAB -> list VOCAB)
    (g : globals) (fid : list char) :
  last (logfile (get_counts_run qsort g fid))
  = Some (Using_vocabulary_of_size
            (Z.of_nat (length (fout (get_counts_run qsort g fid))))) /\
  (1 < verbose g -> Z.of_nat (length fid) <= LLONG_MAX ->
   Processed_tokens (Z.of_nat (length (tokens fid)))
     ∈ logfile (get_counts_run qsort g fid) /\
   Counted_unique_words
     (Z.of_nat (length (remove_dups (cstr <$> tokens fid))))
     ∈ logfile (get_counts_run qsort g fid)).
Proof.
  split.
  - unfold get_counts_run. cbv zeta. cbn [logfile fout]. apply last_snoc.
  - intros Hv Hlen.
    assert (Hlog : Processed_tokens (Z.of_nat (length (tokens fid)))
                     ∈ ranked_log (get_counts_rank qsort g fid) /\
                   Counted_unique_words
                     (Z.of_nat (length (corpus_vocab fid)))
                     ∈ ranked_log (get_counts_rank qsort g fid)).
    { unfold get_counts_rank, corpus_vocab.
      pose proof (count_loop_counts g fid
        (log_if g 1 (Processed_tokens_head 0) [BUILDING_VOCABULARY]) Hlen)
        as Hloop.
      destruct (count_loop _ _ _ _ _ _) as [[ht i] log]. simpl in *.
      injection Hloop as -> ->. unfold log_if.
      destruct (Z.gtb_spec (verbose g) 1); [|lia].
      split; set_solver. }
    destruct Hlog as [H1 H2]. split; [by apply logfile_keeps|].
    pose proof (tokens_length fid).
    rewrite <- (table_words_distinct_tokens (tokens fid)) by lia.
    rewrite length_fmap.
    replace (length (entries (count_tokens (tokens fid))))
      with (length (corpus_vocab fid)); [by apply logfile_keeps|].
    unfold corpus_vocab, migrate. by rewrite length_fmap.
Qed.

(** X28 on the corpus ["a b a"] with [verbose = 2]: 3 tokens are
    reported. *)
Lemma log_reports_counts_witness :
  Processed_tokens (Z.of_nat (length (tokens [97; 32; 98; 32; 97])))
    ∈ logfile (get_counts_run insertion_qsort (mkGlobals 2 1 0)
                 [97; 32; 98; 32; 97]).
Proof.
  refine (proj1 (proj2 (log_reports_counts insertion_qsort (mkGlobals 2 1 0)
    [97; 32; 98; 32; 97]) _ _)); by vm_compute.
Defined.

(** ** [vocab_count] *)

(** X29. A [min_word_count] below 1 acts as 1: with all files open,
    [vocab_count] returns with the same output as for [min_word_count = 1],
    which is the whole ranked prefix. *)
Theorem min_word_count_below_one
    (qsort : (VOCAB -> VOCAB -> Z) -> list VOCAB -> list VOCAB)
    (fid : list char) (verbosity max_vocab_count min_word_count : Z) :
  qsort_contract qsort -> Z.of_nat (length fid) <= LLONG_MAX ->
  min_word_count <= 1 ->
  exists r r1,
    vocab_count qsort (Some fid) true
      verbosity max_vocab_count min_word_count true = Returned 0 r /\
    vocab_count qsort (Some fid) true
      verbosity max_vocab_count 1 true = Returned 0 r1 /\
    fout r = fout r1 /\
    fout r = ranked_prefix (before_emission r).
Proof.
  intros Hq Hlen Hmin.
  set (g := mkGlobals verbosity min_word_count max_vocab_count).
  set (g1 := mkGlobals verbosity 1 max_vocab_count).
  exists (get_counts_run qsort g fid), (get_counts_run qsort g1 fid).
  split; [done|]. split; [done|].
  change (before_emission (get_counts_run qsort g fid))
    with (get_counts_rank qsort g fid).
  change (fout (get_counts_run qsort g fid))
    with (emit (min_count g) (ranked_prefix (get_counts_rank qsort g fid))).
  change (fout (get_counts_run qsort g1 fid))
    with (emit (min_count g1) (ranked_prefix (get_counts_rank qsort g1 fid))).
  rewrite (ranked_prefix_max_vocab qsort g1 g fid eq_refl).
  destruct (ranked_prefix_ok qsort Hq g fid Hlen) as ((_ & Hr & _) & _).
  assert (Hall : forall m, m <= 1 ->
            emit m (ranked_prefix (get_counts_rank qsort g fid))
            = ranked_prefix (get_counts_rank qsort g fid)).
  { intros m Hm. apply emit_all. eapply Forall_impl; [apply Hr|].
    unfold count_in_range. simpl. intros; lia. }
  rewrite !Hall by (simpl; lia). done.
Qed.

(** X29 on the corpus ["a b a"] with [min_word_count = -3]. *)
Lemma min_word_count_below_one_witness :
  exists r r1,
    vocab_count insertion_qsort (Some [97; 32; 98; 32; 97]) true
      2 0 (-3) true = Returned 0 r /\
    vocab_count insertion_qsort (Some [97; 32; 98; 32; 97]) true
      2 0 1 true = Returned 0 r1 /\
    fout r = fout r1 /\
    fout r = ranked_prefix (before_emission r).
Proof.
  apply min_word_count_below_one;
    [apply insertion_qsort_contract|by vm_compute|lia].
Defined.

(** ** Scenarios *)

(** A record found behind the head of its chain is moved to the front. *)
Example scenario_move_to_front :
  hashinsert_chain [99]
    [mkHASHREC [97] 1; mkHASHREC [98] 1; mkHASHREC [99] 1]
  = [mkHASHREC [99] 2; mkHASHREC [97] 1; mkHASHREC [98] 1].
Proof. reflexivity. Qed.

(** A record found at the head stays there, and a new record is linked at
    the end of the chain. *)
Example scenario_head_and_new :
  hashinsert_chain [97] [mkHASHREC [97] 1; mkHASHREC [98] 1]
  = [mkHASHREC [97] 2; mkHASHREC [98] 1] /\
  hashinsert_chain [100; 0; 101] [mkHASHREC [97] 1; mkHASHREC [98] 1]
  = [mkHASHREC [97] 1; mkHASHREC [98] 1; mkHASHREC [100] 1].
Proof. split; reflexivity. Qed.

(** The corpus ["a b a c b a"] with [min_count = 1] and no size limit gives
    the lines ["a 3"], ["b 2"], ["c 1"]. *)
Example scenario_distinct_counts :
  fout_bytes (get_counts_run insertion_qsort (mkGlobals 2 1 0)
                [97; 32; 98; 32; 97; 32; 99; 32; 98; 32; 97])
  = [97; 32; 51; 10; 98; 32; 50; 10; 99; 32; 49; 10].
Proof. by vm_compute. Qed.

(** The corpus ["x x y y z"] with [min_count = 2] gives ["x 2"], ["y 2"];
    the loop breaks at ["z 1"] and reports it. *)
Example scenario_min_count :
  let r := get_counts_run insertion_qsort (mkGlobals 2 2 0)
             [120; 32; 120; 32; 121; 32; 121; 32; 122] in
  fout_bytes r = [120; 32; 50; 10; 121; 32; 50; 10] /\
  logfile r = [BUILDING_VOCABULARY; Processed_tokens_head 0;
               Processed_tokens 5; Counted_unique_words 3;
               Truncating_at_min_count 2; Using_vocabulary_of_size 2].
Proof. by vm_compute. Qed.

(** The empty corpus gives no output and a vocabulary of size 0. *)
Example scenario_empty_corpus :
  let r := get_counts_run insertion_qsort (mkGlobals 0 1 0) [] in
  fout r = [] /\ logfile r = [BUILDING_VOCABULARY; Using_vocabulary_of_size 0].
Proof. by vm_compute. Qed.

(** With [max_vocab = 2] on ["x x y y z"] the array of three entries is
    sorted without tie-break first and its first two entries are then
    sorted with the tie-break. *)
Example scenario_max_vocab :
  let r := get_counts_run insertion_qsort (mkGlobals 2 1 2)
             [120; 32; 120; 32; 121; 32; 121; 32; 122] in
  fout_bytes r = [120; 32; 50; 10; 121; 32; 50; 10] /\
  qsort_calls (before_emission r)
  = [(3%nat, Compare_Vocab); (2%nat, Compare_VocabTie)].
Proof. by vm_compute. Qed.

(** [vocab_count] on ["x x y y z"] with [max_vocab_count = 1] and
    [min_word_count = 2]: one of the two entries of count 2 is kept and
    printed (which one is up to the first [qsort]). *)
Example scenario_vocab_count :
  exists r,
    vocab_count insertion_qsort
      (Some [120; 32; 120; 32; 121; 32; 121; 32; 122]) true 0 1 2 true
    = Returned 0 r /\
    fout_bytes r = [121; 32; 50; 10] /\
    max_vocab_final (before_emission r) = 1.
Proof. eexists. split; [reflexivity|]. by vm_compute. Qed.
